(** * Process supervision core of the forking proxy (nc_process.c)

    A shallow embedding of the master control loop, the listener
    generation builder, the cross-generation socket migrator, the worker
    spawner and the shutdown sequencer, together with the properties the
    design document states about them.

    Pointers are modelled by what they identify: a pool pointer is the
    address of its context plus the index in that context's pool array,
    a connection pointer is a key of the connection heap.  Every
    function of the file runs in a small state monad over a [world]
    (connection heap, process-wide flags, execution trace, state of the
    collaborators), with an outcome that is either a normal return or a
    stop of the process (null dereference, abort, exit).

    The file has three parts: the model of nc_process.c, the vocabulary
    of the properties, and the properties with their proofs. *)

From stdpp Require Import base gmap list strings.
From Stdlib Require Import ZArith.

Open Scope Z_scope.

(** ** Data model *)

(** [rstatus_t] codes used by this file and its collaborators; their
    numeric values are not used by the file, which only tests
    [status != NC_OK]. *)
Inductive rstatus_t := NC_OK | NC_ERROR | NC_EAGAIN | NC_ENOMEM.

Inductive role_t := ROLE_MASTER | ROLE_WORKER.

#[global] Instance rstatus_eq_dec : EqDecision rstatus_t.
Proof. solve_decision. Defined.

#[global] Instance role_eq_dec : EqDecision role_t.
Proof. solve_decision. Defined.

(** [struct server_pool *]: the context that holds the pool array and
    the index of the element. *)
Record pool_ptr := PoolPtr { pp_ctx : nat; pp_idx : nat }.

#[global] Instance pool_ptr_eq_dec : EqDecision pool_ptr.
Proof. solve_decision. Defined.

(** [struct server_pool], restricted to the members this file touches.
    [p_conn] is a pointer to a [struct conn]; [None] is [NULL]. *)
Record server_pool := ServerPool {
  name : string;
  addrstr : string;
  p_conn : option nat
}.

Definition set_p_conn (c : option nat) (p : server_pool) : server_pool :=
  {| name := name p; addrstr := addrstr p; p_conn := c |}.

(** [struct context]: [ctx_addr] is the address of the object,
    [worker_processes] is [cf->global.worker_processes], [pool] the
    array of server pools. *)
Record context := Context {
  ctx_addr : nat;
  worker_processes : Z;
  pool : list server_pool
}.

Definition set_pool (ps : list server_pool) (c : context) : context :=
  {| ctx_addr := ctx_addr c; worker_processes := worker_processes c; pool := ps |}.

(** [struct channel]: the two descriptors of the pipe. *)
Record channel := Channel { fds0 : Z; fds1 : Z }.

(** [struct instance] without its [workers] member, which is only ever
    read through the master's instance and lives in [master] below. *)
Record instance := Instance {
  role : role_t;
  pid : Z;
  ctx : context;
  chan : option channel
}.

Definition set_role (r : role_t) (n : instance) : instance :=
  {| role := r; pid := pid n; ctx := ctx n; chan := chan n |}.
Definition set_pid (p : Z) (n : instance) : instance :=
  {| role := role n; pid := p; ctx := ctx n; chan := chan n |}.
Definition set_ctx (c : context) (n : instance) : instance :=
  {| role := role n; pid := pid n; ctx := c; chan := chan n |}.
Definition set_chan (c : option channel) (n : instance) : instance :=
  {| role := role n; pid := pid n; ctx := ctx n; chan := c |}.

(** The master's [struct instance]: its own members and the [workers]
    array. *)
Record master := Master {
  self : instance;
  workers : list instance
}.

Definition set_self (n : instance) (m : master) : master :=
  {| self := n; workers := workers m |}.
Definition set_workers (ws : list instance) (m : master) : master :=
  {| self := self m; workers := ws |}.

(** ** Execution trace

    One event per log call, per call of a collaborator and per call of
    the functions whose order the design document talks about.  Loop
    indices are kept in the events. *)
Inductive event :=
  (* nc_migrate_proxies, source index i and destination index j *)
  | LogNameChange (i j : nat)
  | LogInitialized (i j : nat)
  | LogMigrate (i j : nat)
  | AssertViolated (what : string)
  (* nc_clone_instance, nc_setup_listener_for_workers *)
  | LogCtxCreateFailed
  | LogInitWorkersFailed
  | EvClone (i : nat) (st : rstatus_t)
  | EvMigrateCall (i : nat)
  | EvInitListener (i : nat) (st : rstatus_t)
  | EvShutdownCall (k : nat)
  (* nc_shutdown_workers *)
  | EvWriteQuit (fd : Z) (n : Z)
  | LogShutdownMsgFailed
  | EvDeallocChannel (ch : channel)
  | EvCtxDestroy (addr : nat)
  (* nc_spawn_workers, nc_close_other_proxies, nc_worker_process *)
  | EvAllocChannel (i : nat) (ok : bool)
  | EvFork (i : nat) (r : Z)
  | LogSpawnFailed
  | LogWorkerStarted (p : Z)
  | EvProxyDeinit (addr : nat)
  | LogWorker (what : string)
  | EvCoreLoop (st : rstatus_t)
  (* nc_multi_processes_cycle *)
  | LogSetupFailed
  | LogReloading
  | LogRecreateFailed
  | EvSigsuspend.

(** ** World and outcomes *)

Record world (E : Type) := World {
  conns : gmap nat pool_ptr;   (* owner member of every struct conn *)
  trace : list event;
  pm_reload : bool;
  pm_respawn : bool;
  pm_myrole : role_t;
  pm_quit : bool;
  env : E
}.
Arguments World {E}.
Arguments conns {E}.
Arguments trace {E}.
Arguments pm_reload {E}.
Arguments pm_respawn {E}.
Arguments pm_myrole {E}.
Arguments pm_quit {E}.
Arguments env {E}.

Inductive stop_reason :=
  | Segv                 (* a null pointer was dereferenced *)
  | Abort                (* a panicking ASSERT failed *)
  | Exit (code : Z)      (* exit(code) *)
  | Running.             (* still looping when the observation ends *)

Inductive outcome (W A : Type) :=
  | Ret (a : A) (w : W)
  | Stop (r : stop_reason) (w : W).
Arguments Ret {W A}.
Arguments Stop {W A}.

Definition M (E A : Type) : Type := world E → outcome (world E) A.

Definition ret {E A} (a : A) : M E A := λ w, Ret a w.

Definition bind {E A B} (m : M E A) (k : A → M E B) : M E B :=
  λ w, match m w with
       | Ret a w' => k a w'
       | Stop r w' => Stop r w'
       end.

Notation "'do' x <- m ; k" := (bind m (λ x, k))
  (at level 10, x name, m at level 100, k at level 200, only parsing).

Definition final_world {W A} (o : outcome W A) : W :=
  match o with Ret _ w => w | Stop _ w => w end.

Section World.
Context {E : Type}.

(** Pure updates of one component of the world. *)
Definition add_events (evs : list event) (w : world E) : world E :=
  World (conns w) (trace w ++ evs) (pm_reload w) (pm_respawn w)
        (pm_myrole w) (pm_quit w) (env w).
Definition put_owner (c : nat) (p : pool_ptr) (w : world E) : world E :=
  World (<[c := p]> (conns w)) (trace w) (pm_reload w) (pm_respawn w)
        (pm_myrole w) (pm_quit w) (env w).
Definition put_reload (b : bool) (w : world E) : world E :=
  World (conns w) (trace w) b (pm_respawn w) (pm_myrole w) (pm_quit w) (env w).
Definition put_respawn (b : bool) (w : world E) : world E :=
  World (conns w) (trace w) (pm_reload w) b (pm_myrole w) (pm_quit w) (env w).
Definition put_myrole (r : role_t) (w : world E) : world E :=
  World (conns w) (trace w) (pm_reload w) (pm_respawn w) r (pm_quit w) (env w).
Definition put_quit (b : bool) (w : world E) : world E :=
  World (conns w) (trace w) (pm_reload w) (pm_respawn w) (pm_myrole w) b (env w).
Definition put_env (e : E) (w : world E) : world E :=
  World (conns w) (trace w) (pm_reload w) (pm_respawn w) (pm_myrole w)
        (pm_quit w) e.
Definition put_heap (h : gmap nat pool_ptr) (w : world E) : world E :=
  World h (trace w) (pm_reload w) (pm_respawn w) (pm_myrole w) (pm_quit w)
        (env w).

Definition log (e : event) : M E unit := λ w, Ret tt (add_events [e] w).

(** [c->owner = p] *)
Definition set_owner (c : nat) (p : pool_ptr) : M E unit :=
  λ w, Ret tt (put_owner c p w).

Definition set_pm_reload (b : bool) : M E unit := λ w, Ret tt (put_reload b w).
Definition set_pm_respawn (b : bool) : M E unit := λ w, Ret tt (put_respawn b w).
Definition set_pm_myrole (r : role_t) : M E unit := λ w, Ret tt (put_myrole r w).
Definition set_pm_quit (b : bool) : M E unit := λ w, Ret tt (put_quit b w).

Definition get {A} (f : world E → A) : M E A := λ w, Ret (f w) w.

(** A call of a collaborator that only touches its own state. *)
Definition call {A} (f : E → A * E) : M E A :=
  λ w, let '(a, e) := f (env w) in Ret a (put_env e w).

(** A call of a collaborator that also creates or releases
    connection objects. *)
Definition call_heap {A} (f : gmap nat pool_ptr → E → A * gmap nat pool_ptr * E)
  : M E A :=
  λ w, let '(a, h, e) := f (conns w) (env w) in
       Ret a (put_env e (put_heap h w)).

Definition stop {A} (r : stop_reason) : M E A := λ w, Stop r w.

(** [for (k = ...; ...; k++) body], the indices given as a list, the
    variables the body updates as the loop state. *)
Fixpoint for_each {S} (idxs : list nat) (body : nat → S → M E S) (s : S)
  : M E S :=
  match idxs with
  | [] => ret s
  | k :: ks => do s' <- body k s ; for_each ks body s'
  end.
End World.

(** Modelled from the spec: [string_compare] (nc_string.c) is not part
    of the sources at hand; the design document says pools are matched
    "by exact equality of the bind-address string", so the result is
    zero exactly when the two strings are equal. *)
Definition string_compare (s1 s2 : string) : Z :=
  if decide (s1 = s2) then 0 else 1.

(** ** nc_migrate_proxies *)

Section Migrate.
Context {E : Type}.

(** The [ASSERT] macro is not part of the sources at hand, and what a
    failed assertion does depends on how the build configures it.  The
    mode is a parameter: a failed assertion is always recorded in the
    trace; it aborts the process when [panic] is set and lets it
    continue otherwise. *)
Definition ASSERT (panic : bool) (what : string) (cond : bool) : M E unit :=
  if cond then ret tt
  else do _ <- log (AssertViolated what) ; if panic then stop Abort else ret tt.

(** Body of the inner loop for source index [i] and destination
    index [j]; the loop state is the pair of pool arrays
    [(dst_pools, src_pools)]. *)
Definition migrate_pair (dst_ctx : nat) (i j : nat)
    (s : list server_pool * list server_pool)
  : M E (list server_pool * list server_pool) :=
  let '(dst_pools, src_pools) := s in
  match src_pools !! i, dst_pools !! j with
  | Some src_pool, Some dst_pool =>
      if bool_decide (string_compare (addrstr dst_pool) (addrstr src_pool) = 0) then
        do _ <- (if bool_decide (string_compare (name dst_pool) (name src_pool) ≠ 0)
                 then log (LogNameChange i j) else ret tt) ;
        match p_conn dst_pool with
        | Some _ =>
            (* this should not happen *)
            do _ <- log (LogInitialized i j) ; ret s
        | None =>
            do _ <- log (LogMigrate i j) ;
            (* dst_pool->p_conn = src_pool->p_conn *)
            let dst_pools' := <[j := set_p_conn (p_conn src_pool) dst_pool]> dst_pools in
            (* dst_pool->p_conn->owner = dst_pool *)
            match p_conn src_pool with
            | None => stop Segv
            | Some c =>
                do _ <- set_owner c (PoolPtr dst_ctx j) ;
                (* src_pool->p_conn = NULL *)
                ret (dst_pools', <[i := set_p_conn None src_pool]> src_pools)
            end
        end
      else ret s
  | _, _ =>
      (* array_get beyond the end of an array; the loops never get here *)
      stop Segv
  end.

Definition migrate_row (dst_ctx : nat) (nelem2 : nat) (i : nat)
    (s : list server_pool * list server_pool)
  : M E (list server_pool * list server_pool) :=
  for_each (seq 0 nelem2) (migrate_pair dst_ctx i) s.

Definition migrate_loops (dst_ctx : nat)
    (s : list server_pool * list server_pool)
  : M E (list server_pool * list server_pool) :=
  for_each (seq 0 (length (snd s)))
           (λ i s', migrate_row dst_ctx (length (fst s')) i s') s.

(** Returns the status and the two contexts as the call leaves
    them. *)
Definition nc_migrate_proxies (panic : bool) (dst src : context)
  : M E (rstatus_t * context * context) :=
  do _ <- ASSERT panic "array_n(src_pools) != 0" (negb (length (pool src) =? 0)%nat) ;
  do _ <- ASSERT panic "array_n(dst_pools) != 0" (negb (length (pool dst) =? 0)%nat) ;
  do s <- migrate_loops (ctx_addr dst) (pool dst, pool src) ;
  ret (NC_OK, set_pool (fst s) dst, set_pool (snd s) src).
End Migrate.

(** ** Collaborators

    Everything this file calls and does not define: the configuration
    and context code, the listener binder, the array and channel
    helpers, the event engine and the operating system.  Each one is a
    function of its arguments and of a hidden state [E], so that the
    same call may answer differently from one time to the next. *)
Record collaborators (E : Type) := Collaborators {
  (* how ASSERT and NOT_REACHED are compiled *)
  assert_panic : bool;
  (* core_ctx_create(nci): a fresh context, or NULL *)
  core_ctx_create : instance → E → option context * E;
  (* core_init_listener(nci): binds or re-registers every pool of nci->ctx *)
  core_init_listener :
    instance → gmap nat pool_ptr → E → rstatus_t * context * gmap nat pool_ptr * E;
  (* core_ctx_destroy(ctx) *)
  core_ctx_destroy : context → gmap nat pool_ptr → E → unit * gmap nat pool_ptr * E;
  (* array_init(&workers, n, size): allocation of the element storage *)
  array_init : Z → E → rstatus_t * E;
  (* nc_alloc_channel(): a channel, or NULL *)
  nc_alloc_channel : E → option channel * E;
  (* nc_write_channel(fd, &msg): bytes written, or <= 0 *)
  nc_write_channel : Z → E → Z * E;
  nc_dealloc_channel : channel → E → unit * E;
  (* fork(): -1, 0 in the child, the child's pid in the parent *)
  fork : E → Z * E;
  getpid : E → Z * E;
  (* proxy_deinit(ctx): closes the listeners of every pool of ctx *)
  proxy_deinit : context → gmap nat pool_ptr → E → context * gmap nat pool_ptr * E;
  (* sigprocmask(SIG_SETMASK, &set, NULL) *)
  sigprocmask : E → Z * E;
  core_init_instance :
    instance → gmap nat pool_ptr → E → rstatus_t * context * gmap nat pool_ptr * E;
  (* nc_add_channel_event(evb, fd) *)
  nc_add_channel_event : Z → E → rstatus_t * E;
  (* core_loop(ctx): one iteration of the event engine; the flag tells
     whether the channel handler saw a quit command and set pm_quit *)
  core_loop : context → E → rstatus_t * bool * E;
  (* sigsuspend(&set): returns after a signal handler ran; the flag
     tells whether the handler called nc_reload_config() *)
  sigsuspend : E → bool * E
}.
Arguments assert_panic {E}.
Arguments core_ctx_create {E}.
Arguments core_init_listener {E}.
Arguments core_ctx_destroy {E}.
Arguments array_init {E}.
Arguments nc_alloc_channel {E}.
Arguments nc_write_channel {E}.
Arguments nc_dealloc_channel {E}.
Arguments fork {E}.
Arguments getpid {E}.
Arguments proxy_deinit {E}.
Arguments sigprocmask {E}.
Arguments core_init_instance {E}.
Arguments nc_add_channel_event {E}.
Arguments core_loop {E}.
Arguments sigsuspend {E}.

(** Result of a loop body that may [return] from the enclosing
    function: [None] goes on with the next iteration. *)
Definition returns (A : Type) : Type := option A.

Section Process.
Context {E : Type} (K : collaborators E).

(** [nc_reload_config] *)
Definition nc_reload_config : M E unit := set_pm_reload true.

(** [nc_clone_instance(dst, src)].  Both pointers are valid at the
    only call site ([dst] is a slot of the preallocated array), so
    the NULL test is not taken.  The result is the status and the
    contents of [*dst]. *)
Definition nc_clone_instance (src : instance) : M E (rstatus_t * instance) :=
  (* nc_memcpy(dst, src, sizeof(struct instance)) *)
  let dst := src in
  do new_ctx <- call (core_ctx_create K dst) ;
  match new_ctx with
  | None => do _ <- log LogCtxCreateFailed ; ret (NC_ERROR, dst)
  | Some c => ret (NC_OK, set_ctx c dst)
  end.

(** *** nc_shutdown_workers *)

(** [array_pop]: the last element and the shortened array. *)
Definition array_pop {A} (a : list A) : option (A * list A) :=
  match last a with
  | Some x => Some (x, take (length a - 1)%nat a)
  | None => None
  end.

Definition shutdown_worker (_ : nat) (ws : list instance) : M E (list instance) :=
  match array_pop ws with
  | None => stop Segv
  | Some (worker_nci, ws') =>
      (* worker_nci->chan->fds[0] *)
      match chan worker_nci with
      | None => stop Segv
      | Some ch =>
          do n <- call (nc_write_channel K (fds0 ch)) ;
          do _ <- log (EvWriteQuit (fds0 ch) n) ;
          do _ <- (if n <=? 0 then log LogShutdownMsgFailed else ret tt) ;
          do _ <- call (nc_dealloc_channel K ch) ;
          do _ <- log (EvDeallocChannel ch) ;
          do _ <- call_heap (core_ctx_destroy K (ctx worker_nci)) ;
          do _ <- log (EvCtxDestroy (ctx_addr (ctx worker_nci))) ;
          ret ws'
      end
  end.

(** Returns the status and what is left of the array. *)
Definition nc_shutdown_workers (ws : list instance)
  : M E (rstatus_t * list instance) :=
  do ws' <- for_each (seq 0 (length ws)) shutdown_worker ws ;
  (* array_deinit(workers) releases the storage *)
  ret (NC_OK, ws').

(** *** nc_setup_listener_for_workers *)

(** Body of the loop for index [i].  [ws] is [parent_nci->workers],
    [old_ws] the local [old_workers].  [migrate] is the migrator the
    body calls; the file instantiates it with [nc_migrate_proxies]. *)
Definition setup_worker_with
    (migrate : context → context → M E (rstatus_t * context * context))
    (parent_nci : instance) (reloading : bool) (old_workers_n : nat)
    (i : nat) (s : list instance * list instance)
  : M E (returns rstatus_t * (list instance * list instance)) :=
  let '(ws, old_ws) := s in
  (* worker_nci = array_push(&parent_nci->workers) *)
  do r <- nc_clone_instance parent_nci ;
  let '(status, worker_nci) := r in
  do _ <- log (EvClone i status) ;
  if negb (bool_decide (status = NC_OK)) then
    ret (Some status, (ws ++ [worker_nci], old_ws))
  else
    let worker_nci := set_role ROLE_WORKER worker_nci in
    do r <- (if reloading && (i <? old_workers_n)%nat then
               match old_ws !! i with
               | None => stop Segv
               | Some old_worker_nci =>
                   do _ <- log (EvMigrateCall i) ;
                   do r <- migrate (ctx worker_nci) (ctx old_worker_nci) ;
                   (* the returned status is dropped *)
                   ret (set_ctx (snd (fst r)) worker_nci,
                        <[i := set_ctx (snd r) old_worker_nci]> old_ws)
               end
             else ret (worker_nci, old_ws)) ;
    let '(worker_nci, old_ws) := r in
    do r <- call_heap (core_init_listener K worker_nci) ;
    let '(status, c) := r in
    do _ <- log (EvInitListener i status) ;
    let ws := ws ++ [set_ctx c worker_nci] in
    if negb (bool_decide (status = NC_OK)) then ret (Some status, (ws, old_ws))
    else ret (None, (ws, old_ws)).

Definition setup_worker := setup_worker_with (nc_migrate_proxies (assert_panic K)).

(** A [for] loop whose body may return from the function. *)
Fixpoint for_return {S R} (idxs : list nat)
    (body : nat → S → M E (returns R * S)) (s : S) : M E (returns R * S) :=
  match idxs with
  | [] => ret (None, s)
  | k :: ks =>
      do r <- body k s ;
      match fst r with
      | Some st => ret (Some st, snd r)
      | None => for_return ks body (snd r)
      end
  end.

(** Returns the status and [*parent_nci] as the call leaves it. *)
Definition nc_setup_listener_for_workers (parent_nci : master) (reloading : bool)
  : M E (rstatus_t * master) :=
  let n := worker_processes (ctx (self parent_nci)) in
  let old_workers := if reloading then workers parent_nci else [] in
  let old_workers_n := if reloading then length old_workers else 0%nat in
  do status <- call (array_init K n) ;
  if negb (bool_decide (status = NC_OK)) then
    do _ <- log LogInitWorkersFailed ; ret (status, parent_nci)
  else
    do r <- for_return (seq 0 (Z.to_nat n))
              (setup_worker (self parent_nci) reloading old_workers_n)
              ([], old_workers) ;
    let '(st, (ws, old_workers)) := r in
    match st with
    | Some status => ret (status, set_workers ws parent_nci)
    | None =>
        do _ <- (if reloading then
                   do _ <- log (EvShutdownCall (length old_workers)) ;
                   do _ <- nc_shutdown_workers old_workers ;
                   ret tt
                 else ret tt) ;
        ret (NC_OK, set_workers ws parent_nci)
    end.

(** *** nc_worker_process *)

(** [for (;!pm_quit;)]: at most [fuel] iterations are observed. *)
Fixpoint worker_loop (fuel : nat) (nci : instance) : M E unit :=
  do q <- get pm_quit ;
  if q : bool then ret tt
  else match fuel with
       | O => stop Running
       | S fuel' =>
           do r <- call (core_loop K (ctx nci)) ;
           let '(status, quit) := r in
           do _ <- log (EvCoreLoop status) ;
           do _ <- (if quit : bool then set_pm_quit true else ret tt) ;
           if negb (bool_decide (status = NC_OK)) then ret tt
           else worker_loop fuel' nci
       end.

(** Returns only through one of its three early [return]s; the end
    of the function is [exit(0)]. *)
Definition nc_worker_process (fuel : nat) (worker_id : nat) (nci : instance)
  : M E instance :=
  do _ <- ASSERT (assert_panic K) "nci->role == ROLE_WORKER"
                 (bool_decide (role nci = ROLE_WORKER)) ;
  do r <- call (sigprocmask K) ;
  if r =? -1 then
    do _ <- log (LogWorker "failed to clear signal mask") ; ret nci
  else
    do r <- call_heap (core_init_instance K nci) ;
    let '(status, c) := r in
    let nci := set_ctx c nci in
    if negb (bool_decide (status = NC_OK)) then
      do _ <- log (LogWorker "failed to initialize") ; ret nci
    else
      (* nci->chan->fds[1] *)
      match chan nci with
      | None => stop Segv
      | Some ch =>
          do status <- call (nc_add_channel_event K (fds1 ch)) ;
          if negb (bool_decide (status = NC_OK)) then
            do _ <- log (LogWorker "failed to add channel event") ; ret nci
          else
            do _ <- worker_loop fuel nci ;
            do _ <- log (LogWorker "terminated with quit flag") ;
            stop (Exit 0)
      end.

(** *** nc_spawn_workers *)

(** [nc_close_other_proxy]: [self] is the element of index [self_i]. *)
Definition nc_close_other_proxy (self_i : nat) (k : nat) (ws : list instance)
  : M E (list instance) :=
  match ws !! k with
  | None => stop Segv
  | Some nci =>
      if bool_decide (k = self_i) then ret ws
      else
        do c <- call_heap (proxy_deinit K (ctx nci)) ;
        do _ <- log (EvProxyDeinit (ctx_addr (ctx nci))) ;
        ret (<[k := set_ctx c nci]> ws)
  end.

(** [array_each(workers, nc_close_other_proxy, self)]; the callback
    never fails, so every element is visited. *)
Definition nc_close_other_proxies (ws : list instance) (self_i : nat)
  : M E (list instance) :=
  for_each (seq 0 (length ws)) (nc_close_other_proxy self_i) ws.

Definition spawn_worker (fuel : nat) (i : nat) (ws : list instance)
  : M E (returns rstatus_t * list instance) :=
  match ws !! i with
  | None => stop Segv
  | Some worker_nci =>
      do ch <- call (nc_alloc_channel K) ;
      do _ <- log (EvAllocChannel i (bool_decide (is_Some ch))) ;
      let worker_nci := set_chan ch worker_nci in
      let ws := <[i := worker_nci]> ws in
      match ch with
      | None => ret (Some NC_ENOMEM, ws)
      | Some _ =>
          do p <- call (fork K) ;
          do _ <- log (EvFork i p) ;
          if p =? -1 then
            do _ <- log LogSpawnFailed ; ret (Some NC_ERROR, ws)
          else if p =? 0 then
            do _ <- set_pm_myrole ROLE_WORKER ;
            do p <- call (getpid K) ;
            let worker_nci := set_pid p worker_nci in
            let ws := <[i := worker_nci]> ws in
            do ws <- nc_close_other_proxies ws i ;
            do worker_nci <- nc_worker_process fuel i
                               (default worker_nci (ws !! i)) ;
            do _ <- ASSERT (assert_panic K) "NOT_REACHED" false ;
            (* no break: control falls into the default label *)
            let worker_nci := set_pid p worker_nci in
            do _ <- log (LogWorkerStarted p) ;
            ret (None, <[i := worker_nci]> ws)
          else
            let worker_nci := set_pid p worker_nci in
            do _ <- log (LogWorkerStarted p) ;
            ret (None, <[i := worker_nci]> ws)
      end
  end.

Definition nc_spawn_workers (fuel : nat) (ws : list instance)
  : M E (rstatus_t * list instance) :=
  do _ <- ASSERT (assert_panic K) "array_n(workers) > 0"
                 (0 <? length ws)%nat ;
  do r <- for_return (seq 0 (length ws)) (spawn_worker fuel) ws ;
  match fst r with
  | Some status => ret (status, snd r)
  | None => ret (NC_OK, snd r)
  end.

(** *** nc_multi_processes_cycle *)

(** The [if (pm_reload)] block of one pass.  The flag of the result
    tells whether the block ended with [continue]. *)
Definition reload_phase (parent_nci : master) : M E (bool * master) :=
  do reload <- get pm_reload ;
  if reload : bool then
    do _ <- set_pm_reload false ;
    do _ <- log LogReloading ;
    do c <- call (core_ctx_create K (self parent_nci)) ;
    match c with
    | None => do _ <- log LogRecreateFailed ; ret (true, parent_nci)
    | Some new_ctx =>
        let prev_ctx := ctx (self parent_nci) in
        let parent_nci := set_self (set_ctx new_ctx (self parent_nci)) parent_nci in
        do r <- nc_setup_listener_for_workers parent_nci true ;
        let '(status, parent_nci) := r in
        if negb (bool_decide (status = NC_OK)) then
          (* skip reloading *)
          ret (true, set_self (set_ctx prev_ctx (self parent_nci)) parent_nci)
        else
          do _ <- set_pm_respawn true ;
          ret (false, parent_nci)
    end
  else ret (false, parent_nci).

(** The [if (pm_respawn)] block: [Some status] is the [break]. *)
Definition respawn_phase (fuel : nat) (parent_nci : master)
  : M E (returns rstatus_t * master) :=
  do respawn <- get pm_respawn ;
  if respawn : bool then
    do _ <- set_pm_respawn false ;
    do r <- nc_spawn_workers fuel (workers parent_nci) ;
    let '(status, ws) := r in
    if negb (bool_decide (status = NC_OK)) then
      ret (Some status, set_workers ws parent_nci)
    else ret (None, set_workers ws parent_nci)
  else ret (None, parent_nci).

(** [sigemptyset(&set); sigsuspend(&set)]: signals are delivered
    while the master waits. *)
Definition wait_phase : M E unit :=
  do _ <- log EvSigsuspend ;
  do reload <- call (sigsuspend K) ;
  if reload : bool then nc_reload_config else ret tt.

(** One pass of the [for (;;)] loop. *)
Definition cycle_pass (fuel : nat) (parent_nci : master)
  : M E (returns rstatus_t * master) :=
  do r <- reload_phase parent_nci ;
  let '(continue, parent_nci) := r in
  if continue : bool then ret (None, parent_nci)
  else
    do r <- respawn_phase fuel parent_nci ;
    match fst r with
    | Some status => ret (Some status, snd r)
    | None => do _ <- wait_phase ; ret (None, snd r)
    end.

Fixpoint cycle_loop (fuel : nat) (parent_nci : master)
  : M E (rstatus_t * master) :=
  match fuel with
  | O => stop Running
  | S fuel' =>
      do r <- cycle_pass fuel' parent_nci ;
      match fst r with
      | Some status => ret (status, snd r)
      | None => cycle_loop fuel' (snd r)
      end
  end.

(** Returns the status and [*parent_nci]; [fuel] bounds the number
    of passes that are observed. *)
Definition nc_multi_processes_cycle (fuel : nat) (parent_nci : master)
  : M E (rstatus_t * master) :=
  do _ <- set_pm_respawn true ;
  do r <- nc_setup_listener_for_workers parent_nci false ;
  let '(status, parent_nci) := r in
  if negb (bool_decide (status = NC_OK)) then
    do _ <- log LogSetupFailed ; ret (status, parent_nci)
  else cycle_loop fuel parent_nci.


End Process.

(** * Vocabulary of the properties

    Predicates on traces, outcomes and loop states that the statements
    and their proofs use, and the concrete generations of the
    examples. *)

(** ** Traces and outcomes *)

(** Every event [m] appends satisfies [P], whatever the outcome. *)
Definition emits {E A} (P : event → Prop) (m : M E A) : Prop :=
  ∀ w, ∃ evs, trace (final_world (m w)) = trace w ++ evs ∧ Forall P evs.

(** Kinds of events. *)
Definition is_transfer_log (e : event) : Prop :=
  match e with
  | LogNameChange _ _ | LogInitialized _ _ | LogMigrate _ _ => True
  | _ => False
  end.

Definition is_migrator_event (e : event) : Prop :=
  match e with
  | LogNameChange _ _ | LogInitialized _ _ | LogMigrate _ _ | AssertViolated _ => True
  | _ => False
  end.

Definition is_shutdown_event (e : event) : Prop :=
  match e with
  | EvWriteQuit _ _ | LogShutdownMsgFailed | EvDeallocChannel _ | EvCtxDestroy _ => True
  | _ => False
  end.

(** [post I Q o]: a normal return satisfies [I], a stop leaves a world
    that satisfies [Q]. *)
Definition post {W A} (I : A → W → Prop) (Q : W → Prop) (o : outcome W A) : Prop :=
  match o with
  | Ret a w => I a w
  | Stop _ w => Q w
  end.

(** ** The migrator *)

Definition name_change (i j : nat) (dp sp : server_pool) : list event :=
  if decide (name dp = name sp) then [] else [LogNameChange i j].

(** The four ways a step of the inner loop can go. *)
Inductive pair_case {E} (c i j : nat) (dst src : list server_pool) (w : world E)
    (sp dp : server_pool)
  : outcome (world E) (list server_pool * list server_pool) → Prop :=
  | pc_nomatch :
      addrstr dp ≠ addrstr sp →
      pair_case c i j dst src w sp dp (Ret (dst, src) w)
  | pc_skip c' :
      addrstr dp = addrstr sp → p_conn dp = Some c' →
      pair_case c i j dst src w sp dp
        (Ret (dst, src) (add_events (name_change i j dp sp ++ [LogInitialized i j]) w))
  | pc_segv :
      addrstr dp = addrstr sp → p_conn dp = None → p_conn sp = None →
      pair_case c i j dst src w sp dp
        (Stop Segv (add_events (name_change i j dp sp ++ [LogMigrate i j]) w))
  | pc_move cn :
      addrstr dp = addrstr sp → p_conn dp = None → p_conn sp = Some cn →
      pair_case c i j dst src w sp dp
        (Ret (<[j := set_p_conn (Some cn) dp]> dst, <[i := set_p_conn None sp]> src)
             (put_owner cn (PoolPtr c j)
                (add_events (name_change i j dp sp ++ [LogMigrate i j]) w))).

Definition migrate_target (e : event) : option nat :=
  match e with
  | LogMigrate _ j => Some j
  | _ => None
  end.

(** Destination indices of the transfers of a trace, in order. *)
Definition migrate_targets (evs : list event) : list nat := omap migrate_target evs.

(** Source [i] is the first source pool that carries the address of
    destination [j], and [j] starts without a connection. *)
Definition first_match (dst0 src0 : list server_pool) (i j : nat) : Prop :=
  ∃ sp dp, src0 !! i = Some sp ∧ dst0 !! j = Some dp ∧
    addrstr dp = addrstr sp ∧ p_conn dp = None ∧
    ∀ i' sp', (i' < i)%nat → src0 !! i' = Some sp' → addrstr sp' ≠ addrstr dp.

Record mig_inv (dst0 src0 dst src : list server_pool) (evs : list event) : Prop := {
  mi_dst_addr : addrstr <$> dst = addrstr <$> dst0;
  mi_src_addr : addrstr <$> src = addrstr <$> src0;
  mi_nodup : NoDup (migrate_targets evs);
  mi_target : ∀ j, j ∈ migrate_targets evs →
                ∃ dp c, dst !! j = Some dp ∧ p_conn dp = Some c;
  mi_none : ∀ j dp, dst !! j = Some dp → p_conn dp = None →
              ∃ dp0, dst0 !! j = Some dp0 ∧ p_conn dp0 = None;
  mi_first : ∀ i j, LogMigrate i j ∈ evs → first_match dst0 src0 i j
}.

(** Every destination that matches one of the first [i] sources is
    connected. *)
Definition rows_done (src0 : list server_pool) (i : nat) (dst : list server_pool) : Prop :=
  ∀ i' j sp dp, (i' < i)%nat → src0 !! i' = Some sp → dst !! j = Some dp →
    addrstr dp = addrstr sp → p_conn dp ≠ None.

Definition cols_done (src0 : list server_pool) (i j : nat) (dst : list server_pool) : Prop :=
  ∀ j' sp dp, (j' < j)%nat → src0 !! i = Some sp → dst !! j' = Some dp →
    addrstr dp = addrstr sp → p_conn dp ≠ None.

(** What is known when the process stops in the middle of the loops
    that started in [w0] on the arrays [dst0] and [src0]. *)
Definition mig_stopped {E} (dst0 src0 : list server_pool) (w0 w : world E) : Prop :=
  ∃ evs, trace w = trace w0 ++ evs ∧ NoDup (migrate_targets evs) ∧
    ∀ i j, LogMigrate i j ∈ evs → first_match dst0 src0 i j.

Definition mig_inner {E} (dst0 src0 : list server_pool) (w0 : world E) (i j : nat)
    (s : list server_pool * list server_pool) (w : world E) : Prop :=
  ∃ evs, trace w = trace w0 ++ evs ∧ mig_inv dst0 src0 (fst s) (snd s) evs ∧
    rows_done src0 i (fst s) ∧ cols_done src0 i j (fst s).

Definition mig_outer {E} (dst0 src0 : list server_pool) (w0 : world E) (i : nat)
    (s : list server_pool * list server_pool) (w : world E) : Prop :=
  ∃ evs, trace w = trace w0 ++ evs ∧ mig_inv dst0 src0 (fst s) (snd s) evs ∧
    rows_done src0 i (fst s).

Definition src_assert : string := "array_n(src_pools) != 0".
Definition dst_assert : string := "array_n(dst_pools) != 0".

(** The assertion events of a call, when no assertion aborts it. *)
Definition migrate_asserts (dst src : context) : list event :=
  (if pool src is [] then [AssertViolated src_assert] else []) ++
  (if pool dst is [] then [AssertViolated dst_assert] else []).

(** The pool arrays keep the addresses of [dst0] and [src0]. *)
Definition same_addrs (dst0 src0 : list server_pool)
    (s : list server_pool * list server_pool) : Prop :=
  addrstr <$> fst s = addrstr <$> dst0 ∧ addrstr <$> snd s = addrstr <$> src0.

Definition dst_conn (j : nat) (s : list server_pool * list server_pool)
    (o : option nat) : Prop :=
  ∃ d, fst s !! j = Some d ∧ p_conn d = o.

Definition src_conn (i : nat) (s : list server_pool * list server_pool)
    (o : option nat) : Prop :=
  ∃ sp, snd s !! i = Some sp ∧ p_conn sp = o.

(** Before the pair [(i, j)]: the connection [c] is still at its
    source. *)
Definition tr_pre {E} (dst0 src0 : list server_pool) (i j c : nat)
    (s : list server_pool * list server_pool) (w : world E) : Prop :=
  same_addrs dst0 src0 s ∧ dst_conn j s None ∧ src_conn i s (Some c) ∧
  ∀ i' sp, i' ≠ i → snd s !! i' = Some sp → p_conn sp ≠ Some c.

(** The source gave its connection to an earlier destination of the
    same address: the pair [(i, j)] will dereference NULL. *)
Definition tr_doomed {E} (dst0 src0 : list server_pool) (i j : nat)
    (s : list server_pool * list server_pool) (w : world E) : Prop :=
  same_addrs dst0 src0 s ∧ dst_conn j s None ∧ src_conn i s None.

(** After the pair [(i, j)]. *)
Definition tr_post {E} (dctx : nat) (dst0 src0 : list server_pool) (i j c : nat)
    (s : list server_pool * list server_pool) (w : world E) : Prop :=
  same_addrs dst0 src0 s ∧ dst_conn j s (Some c) ∧ src_conn i s None ∧
  conns w !! c = Some (PoolPtr dctx j) ∧
  ∀ i' sp, snd s !! i' = Some sp → p_conn sp ≠ Some c.

Definition anything {E} (w : world E) : Prop := True.

(** Rows from [i] on still hold their connections. *)
Definition live_from {E} (dst0 src0 : list server_pool) (i : nat)
    (s : list server_pool * list server_pool) (w : world E) : Prop :=
  same_addrs dst0 src0 s ∧
  ∀ i' sp, (i ≤ i')%nat → snd s !! i' = Some sp → p_conn sp ≠ None.

(** In row [i] before column [j]: the source still holds its
    connection, or gave it to the only destination of its address. *)
Definition live_row {E} (dst0 src0 : list server_pool) (i j : nat)
    (s : list server_pool * list server_pool) (w : world E) : Prop :=
  same_addrs dst0 src0 s ∧
  (∀ i' sp, (i < i')%nat → snd s !! i' = Some sp → p_conn sp ≠ None) ∧
  ((∃ sp, snd s !! i = Some sp ∧ p_conn sp ≠ None) ∨
   ∃ j' dp sp0, (j' < j)%nat ∧ dst0 !! j' = Some dp ∧ src0 !! i = Some sp0 ∧
                addrstr dp = addrstr sp0).

Definition never {E} (w : world E) : Prop := False.

(** A migrator with its status replaced by [f] of it. *)
Definition with_status {E} (f : rstatus_t → rstatus_t)
    (migrate : context → context → M E (rstatus_t * context * context))
  : context → context → M E (rstatus_t * context * context) :=
  λ dst src, do r <- migrate dst src ; ret (f (fst (fst r)), snd (fst r), snd r).

(** ** The shutdown sequencer *)

(** What the sequencer appends for one worker whose quit message
    produced the result [n] of [nc_write_channel]. *)
Definition shutdown_events (worker_nci : instance) (n : Z) : list event :=
  match chan worker_nci with
  | Some ch =>
      EvWriteQuit (fds0 ch) n ::
      (if n <=? 0 then [LogShutdownMsgFailed] else []) ++
      [EvDeallocChannel ch; EvCtxDestroy (ctx_addr (ctx worker_nci))]
  | None => []
  end.

Definition is_write_quit (e : event) : bool :=
  match e with
  | EvWriteQuit _ _ => true
  | _ => false
  end.

Definition count_write_quit (evs : list event) : nat :=
  length (List.filter is_write_quit evs).

(** ** The generation builder *)

(** Events of the builder's loop; a migrator call only occurs on a
    reload and for an index below the size of the old generation. *)
Definition is_setup_event (reloading : bool) (old_workers_n : nat) (e : event) : Prop :=
  match e with
  | EvClone _ _ | EvInitListener _ _ | LogCtxCreateFailed | LogInitWorkersFailed
  | LogNameChange _ _ | LogInitialized _ _ | LogMigrate _ _ | AssertViolated _ => True
  | EvMigrateCall i => reloading = true ∧ (i < old_workers_n)%nat
  | _ => False
  end.

(** No clone and no bind step of the trace failed. *)
Definition no_failure (e : event) : Prop :=
  match e with
  | EvClone _ st | EvInitListener _ st => st = NC_OK
  | LogCtxCreateFailed => False
  | _ => True
  end.

(** Worker [i] was cloned, migrated where there is a source, and
    bound. *)
Definition worker_ready (reloading : bool) (old_workers_n : nat) (evs : list event)
    (i : nat) : Prop :=
  EvClone i NC_OK ∈ evs ∧ EvInitListener i NC_OK ∈ evs ∧
  (reloading = true → (i < old_workers_n)%nat → EvMigrateCall i ∈ evs).

(** What one iteration of the builder's loop appends. *)
Definition setup_step_ok {E} (reloading : bool) (old_n i old_len : nat) (w : world E)
    (o : outcome (world E) (returns rstatus_t * (list instance * list instance)))
  : Prop :=
  ∃ evs,
    trace (final_world o) = trace w ++ evs ∧
    Forall (is_setup_event reloading old_n) evs ∧
    match o with
    | Ret (None, s') _ =>
        Forall no_failure evs ∧ worker_ready reloading old_n evs i ∧
        length (snd s') = old_len
    | _ => True
    end.

(** The loop of the builder: what has been appended when it goes on,
    and when it returns a failure or the process stops. *)
Definition setup_going {E} (reloading : bool) (old_n : nat) (w0 : world E) (k : nat)
    (s : list instance * list instance) (w : world E) : Prop :=
  ∃ evs, trace w = trace w0 ++ evs ∧
    Forall (is_setup_event reloading old_n) evs ∧ Forall no_failure evs ∧
    (∀ i, (i < k)%nat → worker_ready reloading old_n evs i) ∧
    length (snd s) = old_n.

Definition setup_left {E} (reloading : bool) (old_n : nat) (w0 w : world E) : Prop :=
  ∃ evs, trace w = trace w0 ++ evs ∧ Forall (is_setup_event reloading old_n) evs.

(** The events of one build: the events of the loop and, only when
    every iteration succeeded on a reload, the call of the shutdown
    sequencer on the old generation and its events. *)
Definition build_events (reloading : bool) (old_n n : nat) (evs : list event) : Prop :=
  ∃ loop tail, evs = loop ++ tail ∧
    Forall (is_setup_event reloading old_n) loop ∧
    (tail = [] ∨
     ∃ sd, tail = EvShutdownCall old_n :: sd ∧ reloading = true ∧
           Forall is_shutdown_event sd ∧ Forall no_failure loop ∧
           ∀ i, (i < n)%nat → worker_ready reloading old_n loop i).

(** ** The spawner *)


(** ** Concrete generations used by the examples *)

(** The connections 7 and 8 belong to the pools 0 and 1 of the context
    at address 1. *)
Definition ex_world : world unit :=
  World (<[7%nat := PoolPtr 1 0]> (<[8%nat := PoolPtr 1 1]> ∅)) []
        false false ROLE_MASTER false tt.

Definition ex_addr : string := "0.0.0.0:6379".

(** One bound source pool, one unconnected destination pool. *)
Definition ex_src1 : context := Context 1 1 [ServerPool "alpha" ex_addr (Some 7%nat)].
Definition ex_dst1 : context := Context 2 1 [ServerPool "alpha" ex_addr None].

(** Two bound source pools with the same address. *)
Definition ex_src2 : context :=
  Context 1 1 [ServerPool "alpha" ex_addr (Some 7%nat);
               ServerPool "beta" ex_addr (Some 8%nat)].

(** Two unconnected destination pools with the same address. *)
Definition ex_dst2 : context :=
  Context 2 1 [ServerPool "alpha" ex_addr None; ServerPool "beta" ex_addr None].

(** ** A scripted environment

    Collaborators that answer from a script: fresh addresses for
    contexts and connections, and the results of the next calls of the
    binder, of the channel allocator and of fork. *)
Record script := Script {
  next_addr : nat;
  next_conn : nat;
  bind_results : list rstatus_t;
  alloc_results : list bool;
  fork_results : list Z
}.

(** Binds the pools that have no connection: a fresh connection each,
    owned by its pool. *)
Fixpoint bind_pools (cx k fresh : nat) (ps : list server_pool)
    (h : gmap nat pool_ptr) : list server_pool * gmap nat pool_ptr * nat :=
  match ps with
  | [] => ([], h, fresh)
  | p :: ps' =>
      match p_conn p with
      | Some _ =>
          let '(r, h', f) := bind_pools cx (S k) fresh ps' h in (p :: r, h', f)
      | None =>
          let '(r, h', f) :=
            bind_pools cx (S k) (S fresh) ps' (<[fresh := PoolPtr cx k]> h) in
          (set_p_conn (Some fresh) p :: r, h', f)
      end
  end.

Definition ex_init_listener (nci : instance) (h : gmap nat pool_ptr) (e : script)
  : rstatus_t * context * gmap nat pool_ptr * script :=
  let st := default NC_OK (head (bind_results e)) in
  if bool_decide (st = NC_OK) then
    let '(ps, h', f) := bind_pools (ctx_addr (ctx nci)) 0 (next_conn e) (pool (ctx nci)) h in
    (NC_OK, set_pool ps (ctx nci), h',
     Script (next_addr e) f (tail (bind_results e)) (alloc_results e) (fork_results e))
  else
    (st, ctx nci, h,
     Script (next_addr e) (next_conn e) (tail (bind_results e)) (alloc_results e)
            (fork_results e)).

Definition ex_K : collaborators script := {|
  assert_panic := false;
  core_ctx_create := λ nci e,
    (Some (Context (next_addr e) (worker_processes (ctx nci))
                   (set_p_conn None <$> pool (ctx nci))),
     Script (S (next_addr e)) (next_conn e) (bind_results e) (alloc_results e)
            (fork_results e));
  core_init_listener := ex_init_listener;
  core_ctx_destroy := λ _ h e, (tt, h, e);
  array_init := λ _ e, (NC_OK, e);
  nc_alloc_channel := λ e,
    ((if default true (head (alloc_results e)) then Some (Channel 3 4) else None),
     Script (next_addr e) (next_conn e) (bind_results e) (tail (alloc_results e))
            (fork_results e));
  nc_write_channel := λ _ e, (1, e);
  nc_dealloc_channel := λ _ e, (tt, e);
  fork := λ e,
    (default 100 (head (fork_results e)),
     Script (next_addr e) (next_conn e) (bind_results e) (alloc_results e)
            (tail (fork_results e)));
  getpid := λ e, (4242, e);
  proxy_deinit := λ c h e, (c, h, e);
  sigprocmask := λ e, (0, e);
  core_init_instance := λ nci h e, (NC_OK, ctx nci, h, e);
  nc_add_channel_event := λ _ e, (NC_OK, e);
  core_loop := λ _ e, (NC_OK, true, e);
  sigsuspend := λ e, (true, e)
|}.

(** A master configured for one worker and one pool. *)
Definition ex_parent : master :=
  Master (Instance ROLE_MASTER 1 (Context 10 1 [ServerPool "alpha" ex_addr None]) None) [].

Definition ex_start (binds : list rstatus_t) (allocs : list bool) (forks : list Z)
  : world script :=
  World ∅ [] false false ROLE_MASTER false (Script 20 7 binds allocs forks).

(** The start of [nc_multi_processes_cycle] and its first two passes:
    the result is the master before and after the second pass. *)
Definition ex_two_passes : M script (master * master) :=
  do _ <- set_pm_respawn true ;
  do r <- nc_setup_listener_for_workers ex_K ex_parent false ;
  do r1 <- cycle_pass ex_K 1 (snd r) ;
  do r2 <- cycle_pass ex_K 1 (snd r1) ;
  ret (snd r1, snd r2).

(** The worker the master spawned, and the worker the failed reload
    leaves behind. *)
Definition ex_running_worker : instance :=
  Instance ROLE_WORKER 100 (Context 20 1 [ServerPool "alpha" ex_addr (Some 7%nat)])
           (Some (Channel 3 4)).

Definition ex_half_built_worker : instance :=
  Instance ROLE_WORKER 1 (Context 22 1 [ServerPool "alpha" ex_addr (Some 7%nat)]) None.

(** ** Further invariants of the migrator *)

(** The members of a pool the migrator only reads. *)
Definition static (p : server_pool) : string * string := (name p, addrstr p).

(** The connection references the two pool arrays hold. *)
Definition held (s : list server_pool * list server_pool) : list nat :=
  omap p_conn (fst s ++ snd s).

(** The process-wide flags and the state of the collaborators are
    those of [w0]. *)
Definition same_process {E} (w0 w : world E) : Prop :=
  pm_reload w = pm_reload w0 ∧ pm_respawn w = pm_respawn w0 ∧
  pm_myrole w = pm_myrole w0 ∧ pm_quit w = pm_quit w0 ∧ env w = env w0.

(** The owner of every connection that no pool of [src0] references is
    the one in [w0]. *)
Definition same_owners {E} (src0 : list server_pool) (w0 w : world E) : Prop :=
  ∀ c, (∀ sp, sp ∈ src0 → p_conn sp ≠ Some c) → conns w !! c = conns w0 !! c.

(** What the loops of the migrator keep, started on [dst0] and [src0]
    in the world [w0]. *)
Record mig_frame {E} (dst0 src0 : list server_pool) (w0 : world E)
    (s : list server_pool * list server_pool) (w : world E) : Prop := {
  mf_static_dst : static <$> fst s = static <$> dst0;
  mf_static_src : static <$> snd s = static <$> src0;
  mf_held : held s ≡ₚ held (dst0, src0);
  mf_dst : ∀ j dp0, dst0 !! j = Some dp0 →
             is_Some (p_conn dp0) ∨ (∀ sp, sp ∈ src0 → addrstr sp ≠ addrstr dp0) →
             fst s !! j = Some dp0;
  mf_src : ∀ i sp0, src0 !! i = Some sp0 →
             (∀ dp, dp ∈ dst0 → addrstr dp ≠ addrstr sp0) →
             snd s !! i = Some sp0;
  mf_cleared : ∀ i sp, snd s !! i = Some sp →
                 ∃ sp0, src0 !! i = Some sp0 ∧ (sp = sp0 ∨ sp = set_p_conn None sp0);
  mf_process : same_process w0 w;
  mf_owners : same_owners src0 w0 w
}.

Definition mig_frame_stopped {E} (src0 : list server_pool) (w0 w : world E) : Prop :=
  same_process w0 w ∧ same_owners src0 w0 w.

(** Every destination pool that carries the address of a source pool
    owns a connection. *)
Definition all_matched_connected (dst src : list server_pool) : Prop :=
  ∀ i j sp dp, src !! i = Some sp → dst !! j = Some dp →
    addrstr dp = addrstr sp → p_conn dp ≠ None.

(** The second run of the migrator on its own result: pools and owners
    stay as they are. *)
Definition mig_again {E} (s1 : list server_pool * list server_pool) (w1 : world E)
    (s : list server_pool * list server_pool) (w : world E) : Prop :=
  s = s1 ∧ conns w = conns w1.

(** The result of migrating [ex_src2] into [ex_dst1]. *)
Definition ex_dst1_after : context :=
  set_pool [ServerPool "alpha" ex_addr (Some 7%nat)] ex_dst1.

Definition ex_src2_after : context :=
  set_pool [ServerPool "alpha" ex_addr None; ServerPool "beta" ex_addr (Some 8%nat)]
           ex_src2.

Definition ex_world_after : world unit :=
  final_world (nc_migrate_proxies false ex_dst1 ex_src2 ex_world).

(** ** Further vocabulary of the builder, the spawner and the loops *)

(** [x] is a copy of [parent] with the role of a worker and a context
    of its own. *)
Definition built_from (parent x : instance) : Prop :=
  role x = ROLE_WORKER ∧ pid x = pid parent ∧ chan x = chan parent.

(** One iteration of the builder's loop, started with the new array
    [ws]: it appends one element, a worker when it goes on. *)
Definition setup_step_shape {E} (parent : instance) (ws : list instance)
    (o : outcome (world E) (returns rstatus_t * (list instance * list instance)))
  : Prop :=
  match o with
  | Ret (None, s') _ => ∃ x, fst s' = ws ++ [x] ∧ built_from parent x
  | Ret (Some st, s') _ => st ≠ NC_OK ∧ ∃ x, fst s' = ws ++ [x]
  | Stop _ _ => True
  end.

(** Events of a build that is not a reload. *)
Definition is_fresh_build_event (e : event) : Prop :=
  match e with
  | EvClone _ _ | EvInitListener _ _ | LogCtxCreateFailed | LogInitWorkersFailed => True
  | _ => False
  end.

(** The process-wide flags. *)
Definition flags {E} (w : world E) : bool * bool * role_t * bool :=
  (pm_reload w, pm_respawn w, pm_myrole w, pm_quit w).


(** Channel allocation never fails and fork always answers in the
    parent. *)
Definition spawn_friendly {E} (K : collaborators E) : Prop :=
  (∀ e, is_Some (fst (nc_alloc_channel K e))) ∧ (∀ e, 0 < fst (fork K e)).

Definition spawned (x : instance) : Prop := is_Some (chan x) ∧ 0 < pid x.

(** The [proxy_deinit] calls of a child whose own descriptor has the
    index [self_i]. *)
Definition deinit_events (self_i : nat) (ws : list instance) : list event :=
  omap id (imap (λ k x, if decide (k = self_i) then None
                        else Some (EvProxyDeinit (ctx_addr (ctx x)))) ws).

Definition is_core_loop (e : event) : Prop :=
  match e with
  | EvCoreLoop _ => True
  | _ => False
  end.

Definition is_failed_core_loop (e : event) : Prop :=
  match e with
  | EvCoreLoop st => st ≠ NC_OK
  | _ => False
  end.

(** The value a computation returned, [d] when it did not return. *)
Definition returned {W A} (d : A) (o : outcome W A) : A :=
  match o with
  | Ret a _ => a
  | Stop _ _ => d
  end.

(** The scripted environment with an allocator and a fork that never
    fail. *)
Definition ex_K_ok : collaborators script := {|
  assert_panic := false;
  core_ctx_create := core_ctx_create ex_K;
  core_init_listener := core_init_listener ex_K;
  core_ctx_destroy := core_ctx_destroy ex_K;
  array_init := array_init ex_K;
  nc_alloc_channel := λ e, (Some (Channel 3 4), e);
  nc_write_channel := nc_write_channel ex_K;
  nc_dealloc_channel := nc_dealloc_channel ex_K;
  fork := λ e, (100, e);
  getpid := getpid ex_K;
  proxy_deinit := proxy_deinit ex_K;
  sigprocmask := sigprocmask ex_K;
  core_init_instance := core_init_instance ex_K;
  nc_add_channel_event := nc_add_channel_event ex_K;
  core_loop := core_loop ex_K;
  sigsuspend := sigsuspend ex_K
|}.

(** Two workers as the builder leaves them. *)
Definition ex_built_workers : list instance :=
  [Instance ROLE_WORKER 1 (Context 20 2 [ServerPool "alpha" ex_addr (Some 7%nat)]) None;
   Instance ROLE_WORKER 1 (Context 21 2 [ServerPool "alpha" ex_addr (Some 8%nat)]) None].

(** The events of the parent for the worker of index [i], spawned as
    [x]. *)
Definition spawn_events (i : nat) (x : instance) : list event :=
  [EvAllocChannel i true; EvFork i (pid x); LogWorkerStarted (pid x)].

(** What the parent's spawn loop has established before the worker of
    index [k]. *)
Definition spawn_inv {E} (ws : list instance) (w0 : world E) (k : nat)
    (s : list instance) (w : world E) : Prop :=
  length s = length ws ∧ ctx <$> s = ctx <$> ws ∧ role <$> s = role <$> ws ∧
  Forall spawned (take k s) ∧
  trace w = trace w0 ++ concat (imap spawn_events (take k s)) ∧
  flags w = flags w0 ∧ conns w = conns w0.

(** What the loop of [nc_close_other_proxies] has established before
    the element of index [k]. *)
Definition close_inv {E} (self_i : nat) (ws : list instance) (w0 : world E) (k : nat)
    (s : list instance) (w : world E) : Prop :=
  length s = length ws ∧
  (∀ m, (k ≤ m)%nat ∨ m = self_i → s !! m = ws !! m) ∧
  trace w = trace w0 ++ deinit_events self_i (take k ws) ∧
  flags w = flags w0.

(** What a run of [nc_worker_process] on [nci] that appended [evs] can
    end in. *)
Definition worker_outcome {E} (nci : instance) (evs : list event)
    (o : outcome (world E) instance) : Prop :=
  match o with
  | Ret _ _ => Forall (λ e, ¬ is_core_loop e) evs
  | Stop (Exit code) w' =>
      code = 0 ∧ (pm_quit w' = true ∨ Exists is_failed_core_loop evs)
  | Stop Segv _ => chan nci = None
  | Stop Abort _ => role nci ≠ ROLE_WORKER
  | Stop Running _ => True
  end.




(** A child (fork answers 0) whose signal mask cannot be cleared. *)
Definition failing_child {E} (K : collaborators E) : Prop :=
  (∀ e, is_Some (fst (nc_alloc_channel K e))) ∧
  (∀ e, fst (fork K e) = 0) ∧
  (∀ e, fst (sigprocmask K e) = -1).

(** The scripted environment seen from such a child. *)
Definition ex_K_child : collaborators script := {|
  assert_panic := false;
  core_ctx_create := core_ctx_create ex_K;
  core_init_listener := core_init_listener ex_K;
  core_ctx_destroy := core_ctx_destroy ex_K;
  array_init := array_init ex_K;
  nc_alloc_channel := λ e, (Some (Channel 3 4), e);
  nc_write_channel := nc_write_channel ex_K;
  nc_dealloc_channel := nc_dealloc_channel ex_K;
  fork := λ e, (0, e);
  getpid := getpid ex_K;
  proxy_deinit := proxy_deinit ex_K;
  sigprocmask := λ e, (-1, e);
  core_init_instance := core_init_instance ex_K;
  nc_add_channel_event := nc_add_channel_event ex_K;
  core_loop := core_loop ex_K;
  sigsuspend := sigsuspend ex_K
|}.

(** No clone and no bind step among the events failed. *)
Definition step_ok (e : event) : Prop :=
  match e with
  | EvClone _ st | EvInitListener _ st => st = NC_OK
  | _ => True
  end.

(** The event of the step that makes a build return [st]. *)
Definition build_failure_event (st : rstatus_t) (e : event) : Prop :=
  match e with
  | EvClone _ st' | EvInitListener _ st' => st' = st
  | _ => False
  end.

Definition ends_in_failure (st : rstatus_t) (evs : list event) : Prop :=
  st ≠ NC_OK ∧
  ∃ pre e, evs = pre ++ [e] ∧ Forall step_ok pre ∧ build_failure_event st e.

(** How a build on [parent], started in [w], came to return the
    failure [st] in the world [w']: [array_init] answered [st] and the
    build only logged that, or [array_init] succeeded and the loop
    ended in a clone or a bind step that failed with [st]. *)
Definition build_failure {E} (K : collaborators E) (parent : master) (w : world E)
    (st : rstatus_t) (w' : world E) : Prop :=
  (fst (array_init K (worker_processes (ctx (self parent))) (env w)) = st ∧
   trace w' = trace w ++ [LogInitWorkersFailed]) ∨
  (fst (array_init K (worker_processes (ctx (self parent))) (env w)) = NC_OK ∧
   ∃ evs, trace w' = trace w ++ evs ∧ ends_in_failure st evs).

(** Where the status [st] that [nc_multi_processes_cycle] returns, with
    the master [p'] in the world [w'], comes from: it is the status the
    first build returned (the master loop was not entered), or the
    status a spawn pass returned ([p'] is then the master of that pass
    with the array the spawner left, and [w'] the world it left). *)
Definition master_return {E} (K : collaborators E) (parent : master) (w : world E)
    (st : rstatus_t) (p' : master) (w' : world E) : Prop :=
  (∃ w0, nc_setup_listener_for_workers K parent false (put_respawn true w)
         = Ret (st, p') w0 ∧
         w' = add_events [LogSetupFailed] w0) ∨
  (∃ fuel' p1 w1 ws, pm_respawn w1 = false ∧
     nc_spawn_workers K fuel' (workers p1) w1 = Ret (st, ws) w' ∧
     p' = set_workers ws p1).

(** * Properties *)

(** ** Events a computation appends to the trace *)

Section Emits.
Context {E : Type}.

Lemma emits_ret {A} P (a : A) : emits (E := E) P (ret a).
Proof. intros w. exists []. simpl. by rewrite app_nil_r. Qed.

Lemma emits_stop {A} P r : emits (E := E) P (stop (A := A) r).
Proof. intros w. exists []. simpl. by rewrite app_nil_r. Qed.

Lemma emits_log (P : event → Prop) e : P e → emits (E := E) P (log e).
Proof. intros He w. exists [e]. simpl. split; [done | by constructor]. Qed.

Lemma emits_silent {A} P (m : M E A) :
  (∀ w, trace (final_world (m w)) = trace w) → emits (E := E) P m.
Proof. intros H w. exists []. rewrite H, app_nil_r. done. Qed.

Lemma emits_get {A} P (f : world E → A) : emits (E := E) P (get f).
Proof. by apply emits_silent. Qed.

Lemma emits_call {A} P (f : E → A * E) : emits (E := E) P (call f).
Proof.
  apply emits_silent. intros w. unfold call. by destruct (f (env w)).
Qed.

Lemma emits_call_heap {A} P (f : gmap nat pool_ptr → E → A * gmap nat pool_ptr * E) :
  emits (E := E) P (call_heap f).
Proof.
  apply emits_silent. intros w. unfold call_heap.
  by destruct (f (conns w) (env w)) as [[a h] e].
Qed.

Lemma emits_set_owner P c p : emits (E := E) P (set_owner c p).
Proof. by apply emits_silent. Qed.
Lemma emits_set_pm_reload P b : emits (E := E) P (set_pm_reload b).
Proof. by apply emits_silent. Qed.
Lemma emits_set_pm_respawn P b : emits (E := E) P (set_pm_respawn b).
Proof. by apply emits_silent. Qed.
Lemma emits_set_pm_myrole P r : emits (E := E) P (set_pm_myrole r).
Proof. by apply emits_silent. Qed.
Lemma emits_set_pm_quit P b : emits (E := E) P (set_pm_quit b).
Proof. by apply emits_silent. Qed.

Lemma emits_bind {A B} P (m : M E A) (k : A → M E B) :
  emits (E := E) P m → (∀ a, emits (E := E) P (k a)) → emits (E := E) P (bind m k).
Proof.
  intros Hm Hk w. unfold bind. destruct (Hm w) as (e1 & H1 & F1).
  destruct (m w) as [a w'|r w']; simpl in *.
  - destruct (Hk a w') as (e2 & H2 & F2). exists (e1 ++ e2).
    rewrite H2, H1, app_assoc. split; [done | by apply Forall_app].
  - by exists e1.
Qed.

Lemma emits_mono {A} (P Q : event → Prop) (m : M E A) :
  (∀ e, P e → Q e) → emits (E := E) P m → emits (E := E) Q m.
Proof.
  intros HPQ Hm w. destruct (Hm w) as (evs & H & F).
  exists evs. split; [done | by eapply Forall_impl].
Qed.

Lemma emits_for_each {S} P idxs (body : nat → S → M E S) s :
  (∀ k s', emits (E := E) P (body k s')) → emits (E := E) P (for_each idxs body s).
Proof.
  intros Hb. revert s. induction idxs as [|k ks IH]; intros s; simpl.
  - apply emits_ret.
  - apply emits_bind; [apply Hb | intros a; apply IH].
Qed.

Lemma emits_for_return {S R} P idxs (body : nat → S → M E (returns R * S)) s :
  (∀ k s', emits (E := E) P (body k s')) → emits (E := E) P (for_return idxs body s).
Proof.
  intros Hb. revert s. induction idxs as [|k ks IH]; intros s; simpl.
  - apply emits_ret.
  - apply emits_bind; [apply Hb |].
    intros [[st|] s']; simpl; [apply emits_ret | apply IH].
Qed.

Lemma emits_ASSERT (P : event → Prop) panic what cond :
  P (AssertViolated what) → emits (E := E) P (ASSERT (E := E) panic what cond).
Proof.
  intros HP. unfold ASSERT. destruct cond; [apply emits_ret |].
  apply emits_bind; [by apply emits_log |].
  intros _. destruct panic; [apply emits_stop | apply emits_ret].
Qed.
End Emits.

Ltac emits_step :=
  first
    [ apply emits_ret | apply emits_stop | apply emits_get | apply emits_call
    | apply emits_call_heap | apply emits_set_owner | apply emits_set_pm_reload
    | apply emits_set_pm_respawn | apply emits_set_pm_myrole
    | apply emits_set_pm_quit
    | apply emits_log; simpl; try done
    | apply emits_ASSERT; simpl; try done
    | apply emits_bind; [| intros ?] ].

Section MigrateEvents.
Context {E : Type}.

Lemma migrate_pair_emits dst_ctx i j s :
  emits (E := E) is_transfer_log (migrate_pair dst_ctx i j s).
Proof.
  destruct s as [dst src]. unfold migrate_pair.
  destruct (src !! i) as [sp|]; [| emits_step].
  destruct (dst !! j) as [dp|]; [| emits_step].
  case_bool_decide; [| emits_step].
  emits_step.
  - case_bool_decide; emits_step.
  - destruct (p_conn dp); repeat emits_step.
    destruct (p_conn sp); repeat emits_step.
Qed.

Lemma migrate_loops_emits dst_ctx s :
  emits (E := E) is_transfer_log (migrate_loops dst_ctx s).
Proof.
  apply emits_for_each. intros i s'. apply emits_for_each.
  intros j s''. apply migrate_pair_emits.
Qed.

Lemma nc_migrate_proxies_emits panic dst src :
  emits (E := E) is_migrator_event (nc_migrate_proxies panic dst src).
Proof.
  unfold nc_migrate_proxies. repeat emits_step.
  eapply emits_mono; [| apply migrate_loops_emits]. by intros [].
Qed.
End MigrateEvents.

(** ** Loop invariants *)

Section Loops.
Context {E : Type}.

Lemma post_bind {A B} (m : M E A) (k : A → M E B)
    (I : A → world E → Prop) (J : B → world E → Prop) (Q : world E → Prop) w :
  post I Q (m w) →
  (∀ a w', I a w' → post J Q (k a w')) →
  post J Q (bind m k w).
Proof.
  unfold bind. destruct (m w) as [a w'|r w']; simpl; intros H Hk; auto.
Qed.

(** The invariant [I k] holds before iteration [k]. *)
Lemma for_each_seq_inv {S} (I : nat → S → world E → Prop) (Q : world E → Prop)
    (body : nat → S → M E S) a n s w :
  I a s w →
  (∀ k s' w', (a ≤ k < a + n)%nat → I k s' w' → post (I (Datatypes.S k)) Q (body k s' w')) →
  post (I (a + n)%nat) Q (for_each (seq a n) body s w).
Proof.
  revert a s w. induction n as [|n IH]; intros a s w H0 Hstep; simpl.
  - by rewrite Nat.add_0_r.
  - eapply post_bind.
    + apply Hstep; [lia | exact H0].
    + intros s' w' HI. replace (a + Datatypes.S n)%nat with (Datatypes.S a + n)%nat by lia.
      apply IH; [done |]. intros k s'' w'' Hk. apply Hstep. lia.
Qed.

Lemma post_mono {A} (I I' : A → world E → Prop) (Q Q' : world E → Prop) o :
  post I Q o → (∀ a w, I a w → I' a w) → (∀ w, Q w → Q' w) → post I' Q' o.
Proof. destruct o; simpl; auto. Qed.

Lemma add_events_nil (w : world E) : add_events [] w = w.
Proof. destruct w. unfold add_events. simpl. by rewrite app_nil_r. Qed.

Lemma add_events_app e1 e2 (w : world E) :
  add_events e2 (add_events e1 w) = add_events (e1 ++ e2) w.
Proof. unfold add_events. simpl. by rewrite app_assoc. Qed.
End Loops.

Lemma string_compare_0 s1 s2 : string_compare s1 s2 = 0 ↔ s1 = s2.
Proof. unfold string_compare. case_decide; split; (done || lia). Qed.

(** ** One step of the migrator *)

Section PairStep.
Context {E : Type}.
Implicit Types (dst src : list server_pool) (w : world E).

Lemma migrate_pair_nomatch c i j dst src w sp dp :
  src !! i = Some sp → dst !! j = Some dp → addrstr dp ≠ addrstr sp →
  migrate_pair c i j (dst, src) w = Ret (dst, src) w.
Proof.
  intros Hs Hd Hne. unfold migrate_pair. rewrite Hs, Hd.
  rewrite bool_decide_eq_false_2; [done |]. by rewrite string_compare_0.
Qed.

Lemma migrate_pair_skip c i j dst src w sp dp c' :
  src !! i = Some sp → dst !! j = Some dp → addrstr dp = addrstr sp →
  p_conn dp = Some c' →
  migrate_pair c i j (dst, src) w
  = Ret (dst, src) (add_events (name_change i j dp sp ++ [LogInitialized i j]) w).
Proof.
  intros Hs Hd Heq Hc. unfold migrate_pair. rewrite Hs, Hd.
  rewrite bool_decide_eq_true_2 by by rewrite string_compare_0.
  rewrite Hc. unfold name_change, bind, log, ret.
  case_bool_decide as Hn; rewrite string_compare_0 in Hn; case_decide; try done;
    simpl; f_equal; by rewrite ?add_events_app.
Qed.

Lemma migrate_pair_segv c i j dst src w sp dp :
  src !! i = Some sp → dst !! j = Some dp → addrstr dp = addrstr sp →
  p_conn dp = None → p_conn sp = None →
  migrate_pair c i j (dst, src) w
  = Stop Segv (add_events (name_change i j dp sp ++ [LogMigrate i j]) w).
Proof.
  intros Hs Hd Heq Hc Hsc. unfold migrate_pair. rewrite Hs, Hd.
  rewrite bool_decide_eq_true_2 by by rewrite string_compare_0.
  rewrite Hc, Hsc. unfold name_change, bind, log, ret, stop.
  case_bool_decide as Hn; rewrite string_compare_0 in Hn; case_decide; try done;
    simpl; f_equal; by rewrite ?add_events_app.
Qed.

Lemma migrate_pair_move c i j dst src w sp dp cn :
  src !! i = Some sp → dst !! j = Some dp → addrstr dp = addrstr sp →
  p_conn dp = None → p_conn sp = Some cn →
  migrate_pair c i j (dst, src) w
  = Ret (<[j := set_p_conn (Some cn) dp]> dst, <[i := set_p_conn None sp]> src)
        (put_owner cn (PoolPtr c j)
           (add_events (name_change i j dp sp ++ [LogMigrate i j]) w)).
Proof.
  intros Hs Hd Heq Hc Hsc. unfold migrate_pair. rewrite Hs, Hd.
  rewrite bool_decide_eq_true_2 by by rewrite string_compare_0.
  rewrite Hc, Hsc. unfold name_change, bind, log, ret, set_owner.
  case_bool_decide as Hn; rewrite string_compare_0 in Hn; case_decide; try done;
    simpl; do 2 f_equal; by rewrite ?add_events_app.
Qed.

Lemma migrate_pair_cases c i j dst src w sp dp :
  src !! i = Some sp → dst !! j = Some dp →
  pair_case c i j dst src w sp dp (migrate_pair c i j (dst, src) w).
Proof.
  intros Hs Hd.
  destruct (decide (addrstr dp = addrstr sp)) as [Heq|Hne].
  - destruct (p_conn dp) as [c'|] eqn:Hc.
    + erewrite migrate_pair_skip by done. by econstructor.
    + destruct (p_conn sp) as [cn|] eqn:Hsc.
      * erewrite migrate_pair_move by done. by econstructor.
      * erewrite migrate_pair_segv by done. by econstructor.
  - erewrite migrate_pair_nomatch by done. by constructor.
Qed.
End PairStep.

(** ** At most one transfer per destination pool *)

Lemma migrate_targets_app e1 e2 :
  migrate_targets (e1 ++ e2) = migrate_targets e1 ++ migrate_targets e2.
Proof. apply omap_app. Qed.

Lemma migrate_targets_name_change i j dp sp :
  migrate_targets (name_change i j dp sp) = [].
Proof. unfold name_change. by case_decide. Qed.

Lemma LogMigrate_not_name_change a b i j dp sp :
  LogMigrate a b ∉ name_change i j dp sp.
Proof.
  unfold name_change. case_decide; [apply not_elem_of_nil |].
  intros Hin. apply list_elem_of_singleton in Hin. discriminate.
Qed.

Lemma lookup_fmap_addr (l l0 : list server_pool) k p :
  addrstr <$> l = addrstr <$> l0 → l !! k = Some p →
  ∃ p0, l0 !! k = Some p0 ∧ addrstr p0 = addrstr p.
Proof.
  intros Heq Hl.
  assert ((addrstr <$> l0) !! k = Some (addrstr p)) as H.
  { rewrite <- Heq, list_lookup_fmap, Hl. done. }
  rewrite list_lookup_fmap in H. destruct (l0 !! k) as [p0|]; [| done].
  exists p0. split; [done |]. by inversion H.
Qed.

Lemma fmap_addr_insert (l : list server_pool) k p c :
  l !! k = Some p → addrstr <$> <[k := set_p_conn c p]> l = addrstr <$> l.
Proof.
  intros Hl. rewrite list_fmap_insert. simpl.
  apply list_insert_id. by rewrite list_lookup_fmap, Hl.
Qed.

Section NoDuplication.
Context {E : Type}.
Variables (c : nat) (dst0 src0 : list server_pool) (w0 : world E).

Lemma mig_pair_step i j s w :
  (i < length src0)%nat → (j < length dst0)%nat →
  mig_inner dst0 src0 w0 i j s w →
  post (mig_inner dst0 src0 w0 i (S j)) (mig_stopped dst0 src0 w0) (migrate_pair c i j s w).
Proof.
  destruct s as [dst src]. intros Hi Hj (evs & Htr & Inv & Hrows & Hcols).
  simpl in *. destruct Inv as [Hda Hsa Hnd Htg Hnone Hfirst].
  assert (length src = length src0) as Hls.
  { by rewrite <- (length_fmap addrstr src), Hsa, length_fmap. }
  assert (length dst = length dst0) as Hld.
  { by rewrite <- (length_fmap addrstr dst), Hda, length_fmap. }
  destruct (lookup_lt_is_Some_2 src i) as [sp Hsp]; [lia |].
  destruct (lookup_lt_is_Some_2 dst j) as [dp Hdp]; [lia |].
  destruct (lookup_fmap_addr _ _ _ _ Hsa Hsp) as (sp0 & Hsp0 & Hspa).
  assert (∀ a b e, e ≠ LogMigrate a b →
            LogMigrate a b ∈ evs ++ name_change i j dp sp ++ [e] →
            LogMigrate a b ∈ evs) as Hin_old.
  { intros a b e Hne Hin. apply elem_of_app in Hin as [Hin|Hin]; [done |].
    apply elem_of_app in Hin as [Hin|Hin].
    - by apply LogMigrate_not_name_change in Hin.
    - apply list_elem_of_singleton in Hin. congruence. }
  assert (p_conn dp = None → addrstr dp = addrstr sp →
          NoDup (migrate_targets (evs ++ name_change i j dp sp ++ [LogMigrate i j]))
          ∧ ∀ a b, LogMigrate a b ∈ evs ++ name_change i j dp sp ++ [LogMigrate i j] →
              first_match dst0 src0 a b) as Hnew.
  { intros Hc Heq. split.
    - rewrite !migrate_targets_app, migrate_targets_name_change. simpl.
      apply NoDup_app. split; [done |]. split; [| apply NoDup_singleton].
      intros x Hx Hx'. apply list_elem_of_singleton in Hx'. subst x.
      destruct (Htg _ Hx) as (dp' & c' & Hdp' & Hc'). congruence.
    - intros a b Hin.
      destruct (decide (a = i ∧ b = j)) as [[-> ->]|Hne].
      + destruct (Hnone _ _ Hdp Hc) as (dp0 & Hdp0 & Hc0).
        destruct (lookup_fmap_addr _ _ _ _ Hda Hdp) as (dp0' & Hdp0' & Hdpa).
        assert (dp0' = dp0) by congruence. subst dp0'.
        exists sp0, dp0. repeat split; [done | done | congruence | done |].
        intros i' sp' Hi' Hsp' Heq'.
        eapply (Hrows i' j sp' dp); [done | done | done | congruence | done].
      + apply Hfirst. eapply Hin_old; [| exact Hin].
        intros Heqe. inversion Heqe. by apply Hne. }
  pose proof (migrate_pair_cases c i j dst src w sp dp Hsp Hdp) as Hcase.
  inversion Hcase as [Hne Ho|c' Heq Hc Ho|Heq Hc Hsc Ho|cn Heq Hc Hsc Ho];
    simpl.
  - (* no match *)
    exists evs. simpl. repeat split; try done.
    intros j' sp' dp' Hj' Hsp' Hdp' Heq'.
    destruct (decide (j' = j)) as [->|Hnj].
    + exfalso. apply Hne. congruence.
    + eapply Hcols; [| done | done | done]. lia.
  - (* destination already connected *)
    exists (evs ++ name_change i j dp sp ++ [LogInitialized i j]). simpl.
    split; [by rewrite Htr, <- app_assoc |]. split; [split; try done | split; [done |]].
    + by rewrite !migrate_targets_app, migrate_targets_name_change, !app_nil_r.
    + intros j'. rewrite !migrate_targets_app, migrate_targets_name_change.
      simpl. rewrite app_nil_r. apply Htg.
    + intros a b Hin. apply Hfirst. eapply Hin_old; [| exact Hin]. done.
    + intros j' sp' dp' Hj' Hsp' Hdp' Heq'.
      destruct (decide (j' = j)) as [->|Hnj].
      * congruence.
      * eapply Hcols; [| done | done | done]. lia.
  - (* null source connection *)
    destruct (Hnew Hc Heq) as [Hnd' Hfirst'].
    exists (evs ++ name_change i j dp sp ++ [LogMigrate i j]). simpl.
    split; [by rewrite Htr, <- app_assoc | done].
  - (* transfer *)
    destruct (Hnew Hc Heq) as [Hnd' Hfirst'].
    exists (evs ++ name_change i j dp sp ++ [LogMigrate i j]). simpl.
    split; [by rewrite Htr, <- app_assoc |].
    assert (∀ j' dp', <[j := set_p_conn (Some cn) dp]> dst !! j' = Some dp' →
              p_conn dp' ≠ None ∨ (j' ≠ j ∧ dst !! j' = Some dp')) as Hlk.
    { intros j' dp' H. apply list_lookup_insert_Some in H as [(-> & <- & _)|[? H]].
      - by left.
      - right. by split. }
    split; [split | split].
    + rewrite <- Hda. by apply fmap_addr_insert.
    + rewrite <- Hsa. by apply fmap_addr_insert.
    + done.
    + intros j'. rewrite !migrate_targets_app, migrate_targets_name_change.
      simpl. intros Hin. apply elem_of_app in Hin as [Hin|Hin].
      * destruct (decide (j' = j)) as [->|Hnj].
        -- exists (set_p_conn (Some cn) dp), cn. split; [| done].
           apply list_lookup_insert_eq. lia.
        -- destruct (Htg _ Hin) as (dp' & c' & Hdp' & Hc').
           exists dp', c'. split; [| done]. by rewrite list_lookup_insert_ne.
      * apply list_elem_of_singleton in Hin. subst j'.
        exists (set_p_conn (Some cn) dp), cn. split; [| done].
        apply list_lookup_insert_eq. lia.
    + intros j' dp' Hdp' Hc'. destruct (Hlk _ _ Hdp') as [H|[_ H]]; [done |].
      by eapply Hnone.
    + done.
    + intros i' j' sp' dp' Hi' Hsp' Hdp' Heq'.
      destruct (Hlk _ _ Hdp') as [H|[_ H]]; [done |]. by eapply Hrows.
    + intros j' sp' dp' Hj' Hsp' Hdp' Heq'.
      destruct (Hlk _ _ Hdp') as [H|[Hnj H]]; [done |].
      eapply Hcols; [| done | done | done]. lia.
Qed.

Lemma mig_row_step i s w :
  (i < length src0)%nat →
  mig_outer dst0 src0 w0 i s w →
  post (mig_outer dst0 src0 w0 (S i)) (mig_stopped dst0 src0 w0)
       (migrate_row c (length (fst s)) i s w).
Proof.
  intros Hi (evs & Htr & Inv & Hrows).
  assert (length (fst s) = length dst0) as Hld.
  { rewrite <- (length_fmap addrstr (fst s)), (mi_dst_addr _ _ _ _ _ Inv).
    apply length_fmap. }
  unfold migrate_row. rewrite Hld.
  eapply post_mono;
    [apply (for_each_seq_inv (mig_inner dst0 src0 w0 i) (mig_stopped dst0 src0 w0)) | | done].
  - exists evs. split; [done |]. split; [done |]. split; [done |].
    intros j' ? ? Hj'. lia.
  - intros j s' w' Hj. apply mig_pair_step; [done | lia].
  - intros s' w' (evs' & Htr' & Inv' & Hrows' & Hcols'). simpl in Hcols'.
    exists evs'. split; [done |]. split; [done |].
    intros i' j sp dp Hi' Hsp Hdp Heq.
    destruct (decide (i' = i)) as [->|Hni].
    + eapply Hcols'; [| done | done | done].
      apply lookup_lt_Some in Hdp.
      rewrite <- (length_fmap addrstr (fst s')), (mi_dst_addr _ _ _ _ _ Inv'),
        length_fmap in Hdp. done.
    + eapply Hrows'; [| done | done | done]. lia.
Qed.

Lemma mig_loops_post :
  post (mig_outer dst0 src0 w0 (length src0)) (mig_stopped dst0 src0 w0)
       (migrate_loops c (dst0, src0) w0).
Proof.
  unfold migrate_loops. simpl.
  apply (for_each_seq_inv (mig_outer dst0 src0 w0) (mig_stopped dst0 src0 w0)).
  - exists []. rewrite app_nil_r. split; [done |]. split; [split |]; simpl.
    + done.
    + done.
    + apply NoDup_nil_2.
    + intros j Hj. by apply elem_of_nil in Hj.
    + intros j dp Hdp Hc. by exists dp.
    + intros i j Hin. by apply elem_of_nil in Hin.
    + intros i' ? ? ? Hi'. lia.
  - intros i s w [_ Hi] Hout. apply mig_row_step; [lia | done].
Qed.

Lemma mig_loops_stopped :
  mig_stopped dst0 src0 w0 (final_world (migrate_loops c (dst0, src0) w0)).
Proof.
  pose proof mig_loops_post as H.
  destruct (migrate_loops c (dst0, src0) w0) as [s w|r w]; simpl in *; [| done].
  destruct H as (evs & Htr & Inv & _). exists evs.
  split; [done |]. split; [apply Inv | apply Inv].
Qed.
End NoDuplication.

(** ** The assertions of the migrator *)

Section MigrateAsserts.
Context {E : Type}.

Lemma ASSERT_run panic what cond (w : world E) :
  ASSERT panic what cond w =
    if cond then Ret tt w
    else if panic then Stop Abort (add_events [AssertViolated what] w)
         else Ret tt (add_events [AssertViolated what] w).
Proof. unfold ASSERT. destruct cond, panic; reflexivity. Qed.

(** With a panicking [ASSERT], an empty pool array aborts the call
    at the first assertion that fails. *)
Lemma nc_migrate_proxies_abort (dst src : context) (w : world E) :
  pool src = [] ∨ pool dst = [] →
  nc_migrate_proxies true dst src w =
    Stop Abort (add_events [AssertViolated
                  (if pool src is [] then src_assert else dst_assert)] w).
Proof.
  intros H. unfold nc_migrate_proxies, bind. rewrite !ASSERT_run.
  destruct (pool src) as [|sp src']; simpl; [done |].
  destruct H as [H|H]; [done |]. rewrite H. simpl. done.
Qed.

(** In every other case the loops run, after the assertion events. *)
Lemma nc_migrate_proxies_run panic (dst src : context) (w : world E) :
  panic = false ∨ (pool src ≠ [] ∧ pool dst ≠ []) →
  nc_migrate_proxies panic dst src w =
    (do s <- migrate_loops (ctx_addr dst) (pool dst, pool src) ;
     ret (NC_OK, set_pool (fst s) dst, set_pool (snd s) src))
      (add_events (migrate_asserts dst src) w).
Proof.
  intros H. unfold nc_migrate_proxies, migrate_asserts.
  unfold bind at 1 2. rewrite !ASSERT_run.
  destruct (pool src) as [|sp src'], (pool dst) as [|dp dst'], panic; simpl;
    rewrite ?add_events_app, ?add_events_nil; try done;
    destruct H as [H|[H1 H2]]; done.
Qed.

Lemma migrate_asserts_targets dst src : migrate_targets (migrate_asserts dst src) = [].
Proof. unfold migrate_asserts. by destruct (pool src), (pool dst). Qed.

Lemma LogMigrate_not_assert i j dst src : LogMigrate i j ∉ migrate_asserts dst src.
Proof.
  unfold migrate_asserts. intros H. apply elem_of_app in H.
  destruct (pool src), (pool dst), H as [H|H];
    try (by apply elem_of_nil in H);
    apply list_elem_of_singleton in H; discriminate.
Qed.

Lemma final_world_bind_ret {A B} (m : M E A) (f : A → B) w :
  final_world ((do a <- m ; ret (f a)) w) = final_world (m w).
Proof. unfold bind. by destruct (m w). Qed.

Lemma panic_cases panic (dst src : context) :
  (panic = true ∧ (pool src = [] ∨ pool dst = []))
  ∨ (panic = false ∨ (pool src ≠ [] ∧ pool dst ≠ [])).
Proof.
  destruct panic; [| by right; left].
  destruct (pool src); [by left; split; [| left] |].
  destruct (pool dst); [by left; split; [| right] |].
  right. right. done.
Qed.
End MigrateAsserts.

(** C4: every destination pool is the target of at most one transfer
    (the destination indices of the transfers of a call are pairwise
    distinct), a transfer to a destination comes from the first source
    pool, in array order, that carries its address; and a pair whose
    destination already owns a connection is skipped with an error
    logged, pools and connection owners left as they were. *)
Theorem migrate_no_duplication {E} (panic : bool) (dst src : context) (w : world E) :
  (∃ evs, trace (final_world (nc_migrate_proxies panic dst src w)) = trace w ++ evs ∧
      NoDup (migrate_targets evs) ∧
      ∀ i j, LogMigrate i j ∈ evs → first_match (pool dst) (pool src) i j)
  ∧
  (∀ i j dsts srcs sp dp c' (w' : world E),
      srcs !! i = Some sp → dsts !! j = Some dp →
      addrstr dp = addrstr sp → p_conn dp = Some c' →
      ∃ w'', migrate_pair (ctx_addr dst) i j (dsts, srcs) w' = Ret (dsts, srcs) w'' ∧
             conns w'' = conns w' ∧
             trace w'' = trace w' ++ name_change i j dp sp ++ [LogInitialized i j]).
Proof.
  split.
  - destruct (panic_cases panic dst src) as [[-> Hempty]|Hrun].
    + rewrite nc_migrate_proxies_abort by done. simpl. eexists. split; [done |].
      split; [apply NoDup_nil_2 |].
      intros i j Hin. apply list_elem_of_singleton in Hin. discriminate.
    + rewrite nc_migrate_proxies_run by done.
      rewrite (final_world_bind_ret _ (λ s, (NC_OK, set_pool (fst s) dst, set_pool (snd s) src))).
      destruct (mig_loops_stopped (ctx_addr dst) (pool dst) (pool src)
                  (add_events (migrate_asserts dst src) w))
        as (evs & Htr & Hnd & Hfirst).
      exists (migrate_asserts dst src ++ evs). split; [| split].
      * rewrite Htr. simpl. by rewrite <- app_assoc.
      * by rewrite migrate_targets_app, migrate_asserts_targets.
      * intros i j Hin. apply elem_of_app in Hin as [Hin|Hin]; [| by apply Hfirst].
        by apply LogMigrate_not_assert in Hin.
  - intros i j dsts srcs sp dp c' w' Hs Hd Heq Hc.
    eexists. split; [by eapply migrate_pair_skip |]. done.
Qed.

(** ** Transfer of one connection *)

Section Transfer.
Context {E : Type}.
Variables (dctx : nat) (dst0 src0 : list server_pool).
Variables (i j c : nat) (s0 d0 : server_pool).
Hypothesis Hs0 : src0 !! i = Some s0.
Hypothesis Hd0 : dst0 !! j = Some d0.
Hypothesis Haddr : addrstr d0 = addrstr s0.
Hypothesis Hfirst : ∀ i' s', (i' < i)%nat → src0 !! i' = Some s' → addrstr s' ≠ addrstr s0.

Implicit Types (s : list server_pool * list server_pool) (w : world E).

Lemma same_addrs_lookup s a b :
  same_addrs dst0 src0 s → (a < length src0)%nat → (b < length dst0)%nat →
  ∃ sp dp sp0 dp0, snd s !! a = Some sp ∧ fst s !! b = Some dp ∧
    src0 !! a = Some sp0 ∧ dst0 !! b = Some dp0 ∧
    addrstr sp = addrstr sp0 ∧ addrstr dp = addrstr dp0.
Proof.
  intros [Hd Hs] Ha Hb.
  destruct (lookup_lt_is_Some_2 (snd s) a) as [sp Hsp].
  { by rewrite <- (length_fmap addrstr), Hs, length_fmap. }
  destruct (lookup_lt_is_Some_2 (fst s) b) as [dp Hdp].
  { by rewrite <- (length_fmap addrstr), Hd, length_fmap. }
  destruct (lookup_fmap_addr _ _ _ _ Hs Hsp) as (sp0 & ? & ?).
  destruct (lookup_fmap_addr _ _ _ _ Hd Hdp) as (dp0 & ? & ?).
  by exists sp, dp, sp0, dp0.
Qed.

Lemma same_addrs_move (dst src : list server_pool) a b sp dp cn :
  same_addrs dst0 src0 (dst, src) → src !! a = Some sp → dst !! b = Some dp →
  same_addrs dst0 src0
    (<[b := set_p_conn (Some cn) dp]> dst, <[a := set_p_conn None sp]> src).
Proof.
  intros [Hd Hs] Hsp Hdp. split; simpl in *.
  - rewrite <- Hd. by apply fmap_addr_insert.
  - rewrite <- Hs. by apply fmap_addr_insert.
Qed.

(** A step of an earlier row leaves the pair untouched. *)
Lemma tr_step_before a b s w :
  (a < i)%nat → (b < length dst0)%nat →
  tr_pre dst0 src0 i j c s w → post (tr_pre dst0 src0 i j c) anything (migrate_pair dctx a b s w).
Proof.
  intros Ha Hb (Hsh & (d & Hd & Hdc) & (sp' & Hsp' & Hsc) & Hna).
  destruct s as [dst src]. simpl in *.
  assert (a < length src0)%nat as Ha'.
  { apply lookup_lt_Some in Hs0. lia. }
  destruct (same_addrs_lookup (dst, src) a b Hsh Ha' Hb)
    as (sp & dp & sp0 & dp0 & Hsp & Hdp & Hsp0 & Hdp0 & Hspa & Hdpa).
  simpl in *.
  pose proof (migrate_pair_cases dctx a b dst src w sp dp Hsp Hdp) as Hcase.
  inversion Hcase as [Hne Ho|c' Heq Hc Ho|Heq Hc Hsc' Ho|cn Heq Hc Hsc' Ho];
    simpl; [| | exact I |].
  - split; [done |]. split; [by exists d |]. split; [by exists sp' |]. done.
  - split; [done |]. split; [by exists d |]. split; [by exists sp' |]. done.
  - assert (b ≠ j) as Hbj.
    { intros ->. apply (Hfirst a sp0 Ha Hsp0). congruence. }
    split; [by apply same_addrs_move |]. simpl.
    split; [exists d; simpl; by rewrite list_lookup_insert_ne |].
    split; [exists sp'; simpl; rewrite list_lookup_insert_ne by lia; done |].
    intros i' sp1 Hi' Hsp1.
    apply list_lookup_insert_Some in Hsp1 as [(-> & <- & _)|[_ Hsp1]]; [done |].
    by eapply Hna.
Qed.

(** A step of row [i] before column [j]. *)
Lemma tr_step_row_before b s w :
  (b < j)%nat →
  tr_pre dst0 src0 i j c s w ∨ tr_doomed dst0 src0 i j s w →
  post (λ s' w', tr_pre dst0 src0 i j c s' w' ∨ tr_doomed dst0 src0 i j s' w') anything
       (migrate_pair dctx i b s w).
Proof.
  intros Hb Hpd. destruct s as [dst src].
  assert (same_addrs dst0 src0 (dst, src)) as Hsh by (destruct Hpd as [H|H]; apply H).
  assert (i < length src0)%nat as Hi by (by eapply lookup_lt_Some).
  assert (b < length dst0)%nat as Hb'.
  { apply lookup_lt_Some in Hd0. lia. }
  destruct (same_addrs_lookup (dst, src) i b Hsh Hi Hb')
    as (sp & dp & sp0 & dp0 & Hsp & Hdp & Hsp0 & Hdp0 & Hspa & Hdpa).
  simpl in *.
  pose proof (migrate_pair_cases dctx i b dst src w sp dp Hsp Hdp) as Hcase.
  inversion Hcase as [Hne Ho|c' Heq Hc Ho|Heq Hc Hsc' Ho|cn Heq Hc Hsc' Ho];
    simpl; [| | exact I |].
  - destruct Hpd as [(_ & Hd & Hs & Hna)|(_ & Hd & Hs)]; [left | right]; done.
  - destruct Hpd as [(_ & Hd & Hs & Hna)|(_ & Hd & Hs)]; [left | right]; done.
  - right. split; [by apply same_addrs_move |].
    assert (dst_conn j (dst, src) None) as (d & Hd & Hdc)
      by (destruct Hpd as [H|H]; apply H).
    simpl in *. split.
    + exists d. simpl. rewrite list_lookup_insert_ne by lia. done.
    + exists (set_p_conn None sp). simpl. split; [| done].
      apply list_lookup_insert_eq. by eapply lookup_lt_Some.
Qed.

(** The step of the pair itself. *)
Lemma tr_step_pair s w :
  tr_pre dst0 src0 i j c s w ∨ tr_doomed dst0 src0 i j s w →
  post (tr_post dctx dst0 src0 i j c) anything (migrate_pair dctx i j s w).
Proof.
  intros Hpd. destruct s as [dst src].
  assert (same_addrs dst0 src0 (dst, src)) as Hsh by (destruct Hpd as [H|H]; apply H).
  assert (dst_conn j (dst, src) None) as (d & Hd & Hdc)
    by (destruct Hpd as [H|H]; apply H).
  assert (i < length src0)%nat as Hi by (by eapply lookup_lt_Some).
  assert (j < length dst0)%nat as Hj by (by eapply lookup_lt_Some).
  destruct (same_addrs_lookup (dst, src) i j Hsh Hi Hj)
    as (sp & dp & sp0 & dp0 & Hsp & Hdp & Hsp0 & Hdp0 & Hspa & Hdpa).
  simpl in *. assert (d = dp) by congruence. subst d.
  assert (sp0 = s0) by congruence. assert (dp0 = d0) by congruence. subst.
  pose proof (migrate_pair_cases dctx i j dst src w sp dp Hsp Hdp) as Hcase.
  inversion Hcase as [Hne Ho|c' Heq Hc Ho|Heq Hc Hsc' Ho|cn Heq Hc Hsc' Ho];
    simpl; [| | exact I |].
  - exfalso. apply Hne. congruence.
  - congruence.
  - destruct Hpd as [(_ & _ & (sp' & Hsp' & Hsc) & Hna)|(_ & _ & (sp' & Hsp' & Hsc))];
      simpl in *; [| congruence].
    assert (sp' = sp) by congruence. subst sp'.
    assert (cn = c) by congruence. subst cn.
    split; [by apply same_addrs_move |]. simpl.
    split; [exists (set_p_conn (Some c) dp); simpl; split; [| done];
            apply list_lookup_insert_eq; by eapply lookup_lt_Some |].
    split; [exists (set_p_conn None sp); simpl; split; [| done];
            apply list_lookup_insert_eq; by eapply lookup_lt_Some |].
    split; [apply lookup_insert_eq |].
    intros i' sp1 Hsp1.
    apply list_lookup_insert_Some in Hsp1 as [(-> & <- & _)|[Hne Hsp1]]; [done |].
    eapply Hna; [| done]. done.
Qed.

(** Once the transfer is done no later step undoes it. *)
Lemma tr_step_after a b s w :
  (a < length src0)%nat → (b < length dst0)%nat →
  tr_post dctx dst0 src0 i j c s w →
  post (tr_post dctx dst0 src0 i j c) anything (migrate_pair dctx a b s w).
Proof.
  intros Ha Hb (Hsh & (d & Hd & Hdc) & (sp' & Hsp' & Hsc) & Hown & Hna).
  destruct s as [dst src].
  destruct (same_addrs_lookup (dst, src) a b Hsh Ha Hb)
    as (sp & dp & sp0 & dp0 & Hsp & Hdp & Hsp0 & Hdp0 & Hspa & Hdpa).
  simpl in *.
  pose proof (migrate_pair_cases dctx a b dst src w sp dp Hsp Hdp) as Hcase.
  inversion Hcase as [Hne Ho|c' Heq Hc Ho|Heq Hc Hsc' Ho|cn Heq Hc Hsc' Ho];
    simpl; [| | exact I |].
  - split; [done |]. split; [by exists d |]. split; [by exists sp' |]. done.
  - split; [done |]. split; [by exists d |]. split; [by exists sp' |]. done.
  - assert (b ≠ j) as Hbj by (intros ->; congruence).
    assert (cn ≠ c) as Hcn.
    { intros ->. by eapply (Hna a sp). }
    split; [by apply same_addrs_move |]. simpl.
    split; [exists d; simpl; by rewrite list_lookup_insert_ne |].
    split.
    { destruct (decide (a = i)) as [->|Hai].
      - exists (set_p_conn None sp). simpl. split; [| done].
        apply list_lookup_insert_eq. by eapply lookup_lt_Some.
      - exists sp'. simpl. by rewrite list_lookup_insert_ne. }
    split; [by rewrite lookup_insert_ne |].
    intros i' sp1 Hsp1.
    apply list_lookup_insert_Some in Hsp1 as [(-> & <- & _)|[_ Hsp1]]; [done |].
    by eapply Hna.
Qed.

Lemma same_addrs_length s : same_addrs dst0 src0 s → length (fst s) = length dst0.
Proof.
  intros [Hd _]. by rewrite <- (length_fmap addrstr), Hd, length_fmap.
Qed.

Lemma tr_row_before a s w :
  (a < i)%nat → tr_pre dst0 src0 i j c s w →
  post (tr_pre dst0 src0 i j c) anything (migrate_row dctx (length (fst s)) a s w).
Proof.
  intros Ha Hpre. unfold migrate_row.
  rewrite (same_addrs_length s) by apply Hpre.
  apply (for_each_seq_inv (λ _, tr_pre dst0 src0 i j c) anything); [done |].
  intros b s' w' Hb. apply tr_step_before; [done | lia].
Qed.

Lemma tr_row_pair s w :
  tr_pre dst0 src0 i j c s w →
  post (tr_post dctx dst0 src0 i j c) anything (migrate_row dctx (length (fst s)) i s w).
Proof.
  intros Hpre. unfold migrate_row.
  rewrite (same_addrs_length s) by apply Hpre.
  assert (j < length dst0)%nat as Hj by (by eapply lookup_lt_Some).
  assert (i < length src0)%nat as Hi by (by eapply lookup_lt_Some).
  eapply post_mono;
    [apply (for_each_seq_inv
              (λ b s' w', ((b ≤ j)%nat ∧ (tr_pre dst0 src0 i j c s' w'
                                         ∨ tr_doomed dst0 src0 i j s' w'))
                          ∨ ((j < b)%nat ∧ tr_post dctx dst0 src0 i j c s' w')) anything) | | done].
  - left. split; [lia | by left].
  - intros b s' w' Hb [[Hbj Hpd]|[Hbj Hpost]].
    + destruct (decide (b = j)) as [->|Hne].
      * eapply post_mono; [by apply tr_step_pair | | done].
        intros s'' w'' H. right. split; [lia | done].
      * eapply post_mono; [apply tr_step_row_before; [lia | done] | | done].
        intros s'' w'' H. left. split; [lia | done].
    + eapply post_mono; [apply tr_step_after; [done | lia | done] | | done].
      intros s'' w'' H. right. split; [lia | done].
  - intros s' w' [[Hbj _]|[_ Hpost]]; [simpl in Hbj; lia | done].
Qed.

Lemma tr_row_after a s w :
  (a < length src0)%nat → tr_post dctx dst0 src0 i j c s w →
  post (tr_post dctx dst0 src0 i j c) anything (migrate_row dctx (length (fst s)) a s w).
Proof.
  intros Ha Hpost. unfold migrate_row.
  rewrite (same_addrs_length s) by apply Hpost.
  apply (for_each_seq_inv (λ _, tr_post dctx dst0 src0 i j c) anything); [done |].
  intros b s' w' Hb. apply tr_step_after; [done | lia].
Qed.

Lemma tr_loops w :
  tr_pre dst0 src0 i j c (dst0, src0) w →
  post (tr_post dctx dst0 src0 i j c) anything (migrate_loops dctx (dst0, src0) w).
Proof.
  intros Hpre. unfold migrate_loops. simpl.
  assert (i < length src0)%nat as Hi by (by eapply lookup_lt_Some).
  eapply post_mono;
    [apply (for_each_seq_inv
              (λ a s' w', ((a ≤ i)%nat ∧ tr_pre dst0 src0 i j c s' w')
                          ∨ ((i < a)%nat ∧ tr_post dctx dst0 src0 i j c s' w'))
              anything) | | done].
  - left. split; [lia | done].
  - intros a s' w' Ha [[Hai Hp]|[Hai Hp]].
    + destruct (decide (a = i)) as [->|Hne].
      * eapply post_mono; [by apply tr_row_pair | | done].
        intros s'' w'' H. right. split; [lia | done].
      * eapply post_mono; [apply tr_row_before; [lia | done] | | done].
        intros s'' w'' H. left. split; [lia | done].
    + eapply post_mono; [apply tr_row_after; [lia | done] | | done].
      intros s'' w'' H. right. split; [lia | done].
  - intros s' w' [[Hai _]|[_ Hpost]]; [simpl in Hai; lia | done].
Qed.
End Transfer.

(** C1 (amended): when the migrator returns, a source pool [s] that
    holds a live connection [c] referenced by no other source pool, and
    is the first source pool carrying its bind address, has handed [c]
    to every destination pool [d] of that address that started
    unconnected: [d] owns [c], the owner of [c] points at [d], and the
    connection reference of [s] is null. *)
Theorem migrate_transfers_connection {E} (panic : bool) (dst src dst' src' : context)
    (w w' : world E) (st : rstatus_t) (i j c : nat) (s d : server_pool) :
  nc_migrate_proxies panic dst src w = Ret (st, dst', src') w' →
  pool src !! i = Some s → pool dst !! j = Some d →
  addrstr d = addrstr s → p_conn d = None → p_conn s = Some c →
  (∀ i' s', (i' < i)%nat → pool src !! i' = Some s' → addrstr s' ≠ addrstr s) →
  (∀ i' s', i' ≠ i → pool src !! i' = Some s' → p_conn s' ≠ Some c) →
  (∃ d', pool dst' !! j = Some d' ∧ p_conn d' = Some c) ∧
  conns w' !! c = Some (PoolPtr (ctx_addr dst') j) ∧
  (∃ s', pool src' !! i = Some s' ∧ p_conn s' = None).
Proof.
  intros Hrun Hs Hd Haddr Hdc Hsc Hfirst Hna.
  destruct (panic_cases panic dst src) as [[-> Hempty]|Hok].
  { rewrite nc_migrate_proxies_abort in Hrun by done. discriminate. }
  rewrite nc_migrate_proxies_run in Hrun by done. unfold bind in Hrun.
  pose proof (tr_loops (ctx_addr dst) (pool dst) (pool src) i j c s d Hs Hd Haddr Hfirst
                (add_events (migrate_asserts dst src) w)) as Hpost.
  destruct (migrate_loops (ctx_addr dst) (pool dst, pool src)
              (add_events (migrate_asserts dst src) w)) as [s1 w1|r w1];
    [| discriminate].
  inversion Hrun; subst. simpl in Hpost.
  destruct Hpost as (_ & Hdst & Hsrc & Hown & _).
  - split; [done |]. split; [by exists d |]. split; [by exists s |]. done.
  - done.
Qed.

(** The property does not hold for every matching pair: of two source
    pools with the address of an unconnected destination pool only the
    first hands over its connection; the second keeps its own. *)
Lemma migrate_second_source_not_transferred :
  ∃ dst' src' w',
    nc_migrate_proxies false ex_dst1 ex_src2 ex_world = Ret (NC_OK, dst', src') w' ∧
    (∃ s d, pool ex_src2 !! 1%nat = Some s ∧ pool ex_dst1 !! 0%nat = Some d ∧
            addrstr d = addrstr s ∧ p_conn d = None ∧ p_conn s = Some 8%nat) ∧
    (pool dst' !! 0%nat) ≫= p_conn = Some 7%nat ∧
    (pool src' !! 1%nat) ≫= p_conn = Some 8%nat ∧
    conns w' !! 8%nat = Some (PoolPtr 1 1).
Proof.
  do 3 eexists. split; [reflexivity |].
  split; [by do 2 eexists |]. by vm_compute.
Qed.

Lemma migrate_transfers_connection_witness :
  (∃ d', pool (set_pool [ServerPool "alpha" ex_addr (Some 7%nat)] ex_dst1) !! 0%nat
         = Some d' ∧ p_conn d' = Some 7%nat) ∧
  conns (put_owner 7 (PoolPtr 2 0) (add_events [LogMigrate 0 0] ex_world)) !! 7%nat
  = Some (PoolPtr (ctx_addr (set_pool [ServerPool "alpha" ex_addr (Some 7%nat)] ex_dst1)) 0) ∧
  (∃ s', pool (set_pool [ServerPool "alpha" ex_addr None] ex_src1) !! 0%nat
         = Some s' ∧ p_conn s' = None).
Proof.
  apply (migrate_transfers_connection false ex_dst1 ex_src1 _ _ ex_world _ NC_OK
           0 0 7 (ServerPool "alpha" ex_addr (Some 7%nat))
           (ServerPool "alpha" ex_addr None)).
  - reflexivity.
  - reflexivity.
  - reflexivity.
  - reflexivity.
  - reflexivity.
  - reflexivity.
  - intros i' s' Hlt. lia.
  - intros [|i'] s' Hne Hlk; [done | discriminate].
Defined.

(** C3: two destination pools with the address of one bound source
    pool.  The first destination takes the connection and clears the
    source; at the second destination the source reference is already
    NULL, the destination is unconnected, so the collision test is not
    taken and [dst_pool->p_conn->owner] dereferences NULL.  No error
    is logged. *)
Theorem migrate_two_destinations_segv (panic : bool) :
  ∃ w', nc_migrate_proxies panic ex_dst2 ex_src1 ex_world = Stop Segv w' ∧
        trace w' = [LogMigrate 0 0; LogNameChange 0 1; LogMigrate 0 1] ∧
        conns w' !! 7%nat = Some (PoolPtr 2 0).
Proof. destruct panic; eexists; (split; [reflexivity | by vm_compute]). Qed.

(** C10: the migrator asserts that both pool arrays are non-empty.  A
    call with an empty pool array on either side records a failed
    assertion, and aborts when assertions panic; a call with two
    non-empty arrays fails no assertion. *)
Theorem migrate_requires_pools {E} (panic : bool) (dst src : context) (w : world E) :
  ∃ evs, trace (final_world (nc_migrate_proxies panic dst src w)) = trace w ++ evs ∧
    (pool src = [] ∨ pool dst = [] → ∃ what, AssertViolated what ∈ evs) ∧
    (pool src = [] ∨ pool dst = [] → panic = true →
       ∃ w', nc_migrate_proxies panic dst src w = Stop Abort w') ∧
    (pool src ≠ [] → pool dst ≠ [] → ∀ what, AssertViolated what ∉ evs).
Proof.
  destruct (panic_cases panic dst src) as [[-> Hempty]|Hrun].
  - rewrite nc_migrate_proxies_abort by done. simpl. eexists. split; [done |].
    split; [| split].
    + intros _. eexists. apply list_elem_of_singleton. done.
    + intros _ _. by eexists.
    + intros Hs Hd. by destruct Hempty.
  - rewrite nc_migrate_proxies_run by done.
    rewrite (final_world_bind_ret _ (λ s, (NC_OK, set_pool (fst s) dst, set_pool (snd s) src))).
    destruct (migrate_loops_emits (ctx_addr dst) (pool dst, pool src)
                (add_events (migrate_asserts dst src) w)) as (evs & Htr & Hall).
    exists (migrate_asserts dst src ++ evs). split; [| split; [| split]].
    + rewrite Htr. simpl. by rewrite <- app_assoc.
    + intros Hempty. unfold migrate_asserts.
      destruct Hempty as [->| ->].
      * exists src_assert. apply elem_of_app. left. apply elem_of_app. left.
        by apply list_elem_of_singleton.
      * exists dst_assert. apply elem_of_app. left. apply elem_of_app. right.
        by apply list_elem_of_singleton.
    + intros Hempty ->. destruct Hrun as [?|[Hs Hd]]; [done |].
      by destruct Hempty.
    + intros Hs Hd what Hin. unfold migrate_asserts in Hin.
      destruct (pool src); [done |]. destruct (pool dst); [done |].
      simpl in Hin. rewrite Forall_forall in Hall. by apply Hall in Hin.
Qed.

Lemma migrate_requires_pools_witness :
  ∃ w', nc_migrate_proxies true ex_dst1 (set_pool [] ex_src1) ex_world = Stop Abort w'.
Proof.
  destruct (migrate_requires_pools true ex_dst1 (set_pool [] ex_src1) ex_world)
    as (evs & _ & _ & Habort & _).
  apply Habort; [left; reflexivity | reflexivity].
Defined.

(** ** Shutdown of a generation *)

Section Shutdown.
Context {E : Type} (K : collaborators E).

Lemma array_pop_snoc {A} (a : list A) (x : A) : array_pop (a ++ [x]) = Some (x, a).
Proof.
  unfold array_pop. rewrite last_snoc, length_app. simpl.
  replace (length a + 1 - 1)%nat with (length a) by lia.
  by rewrite take_app_length.
Qed.

Lemma shutdown_worker_run k (ws : list instance) (x : instance) ch (w : world E) :
  chan x = Some ch →
  ∃ n w', shutdown_worker K k (ws ++ [x]) w = Ret ws w' ∧
          trace w' = trace w ++ shutdown_events x n.
Proof.
  intros Hch. unfold shutdown_worker. rewrite array_pop_snoc, Hch.
  unfold shutdown_events. rewrite Hch.
  unfold bind, call, call_heap, log, ret.
  destruct (nc_write_channel K (fds0 ch) (env w)) as [n e1] eqn:Hw.
  exists n. simpl.
  destruct (n <=? 0); simpl;
    destruct (nc_dealloc_channel K ch e1) as [[] e2]; simpl;
    destruct (core_ctx_destroy K (ctx x) (conns w) e2) as [[[] h] e3]; simpl;
    eexists; (split; [reflexivity |]); simpl; by rewrite <- !app_assoc.
Qed.

Lemma count_write_quit_app e1 e2 :
  count_write_quit (e1 ++ e2) = (count_write_quit e1 + count_write_quit e2)%nat.
Proof. unfold count_write_quit. by rewrite List.filter_app, length_app. Qed.

Lemma count_write_quit_shutdown x n ch :
  chan x = Some ch → count_write_quit (shutdown_events x n) = 1%nat.
Proof.
  intros Hch. unfold shutdown_events. rewrite Hch.
  unfold count_write_quit. simpl. by destruct (n <=? 0).
Qed.

Lemma shutdown_loop idxs (ws : list instance) (w : world E) :
  length idxs = length ws →
  Forall (λ x, chan x ≠ None) ws →
  ∃ w' ns, for_each idxs (shutdown_worker K) ws w = Ret [] w' ∧
           length ns = length ws ∧
           trace w' = trace w ++ concat (zip_with shutdown_events (reverse ws) ns) ∧
           count_write_quit (concat (zip_with shutdown_events (reverse ws) ns))
           = length ws.
Proof.
  revert ws w. induction idxs as [|k ks IH]; intros ws w Hlen Hch.
  - destruct ws; [| done]. exists w, []. simpl. by rewrite app_nil_r.
  - destruct ws as [|x0 ws0] using rev_ind; [done |]. clear IHws0.
    rewrite length_app in Hlen. simpl in Hlen.
    apply Forall_app in Hch as [Hch0 Hx]. rewrite Forall_singleton in Hx.
    destruct (chan x0) as [ch|] eqn:Hc; [| exfalso; by apply Hx].
    destruct (shutdown_worker_run k ws0 x0 ch w Hc) as (n & w1 & Hrun & Htr1).
    destruct (IH ws0 w1) as (w' & ns & Hloop & Hns & Htr & Hcount); [lia | done |].
    exists w', (n :: ns). simpl. unfold bind. rewrite Hrun, Hloop.
    rewrite reverse_snoc. simpl. rewrite length_app. simpl.
    split; [done |]. split; [lia |]. split.
    + by rewrite Htr, Htr1, <- app_assoc.
    + rewrite count_write_quit_app, Hcount.
      rewrite (count_write_quit_shutdown _ _ _ Hc). lia.
Qed.
End Shutdown.

(** C6: run on a generation of workers that all have a channel, the
    sequencer returns with an empty collection; it appends, worker
    after worker from the last one to the first, the quit write on the
    worker's channel (a write that fails is logged, not retried), then
    the release of that channel, then the destruction of the worker's
    context: exactly as many quit writes as there are workers. *)
Theorem shutdown_complete {E} (K : collaborators E) (ws : list instance) (w : world E) :
  Forall (λ x, chan x ≠ None) ws →
  ∃ w' ns, nc_shutdown_workers K ws w = Ret (NC_OK, []) w' ∧
           length ns = length ws ∧
           trace w' = trace w ++ concat (zip_with shutdown_events (reverse ws) ns) ∧
           count_write_quit (concat (zip_with shutdown_events (reverse ws) ns))
           = length ws.
Proof.
  intros Hch.
  destruct (shutdown_loop K (seq 0 (length ws)) ws w) as (w' & ns & Hloop & Hrest);
    [by rewrite length_seq | done |].
  exists w', ns. split; [| done].
  unfold nc_shutdown_workers, bind. by rewrite Hloop.
Qed.

(** ** Events of the generation builder *)

Section Setup.
Context {E : Type} (K : collaborators E).

Lemma for_return_seq_inv {S R} (I : nat → S → world E → Prop)
    (F : R → S → world E → Prop) (Q : world E → Prop)
    (body : nat → S → M E (returns R * S)) a n s w :
  I a s w →
  (∀ k s' w', (a ≤ k < a + n)%nat → I k s' w' →
     post (λ r w'', match fst r with
                    | None => I (Datatypes.S k) (snd r) w''
                    | Some st => F st (snd r) w''
                    end) Q (body k s' w')) →
  post (λ r w'', match fst r with
                 | None => I (a + n)%nat (snd r) w''
                 | Some st => F st (snd r) w''
                 end) Q (for_return (seq a n) body s w).
Proof.
  revert a s w. induction n as [|n IH]; intros a s w H0 Hstep; simpl.
  - by rewrite Nat.add_0_r.
  - eapply post_bind.
    + apply Hstep; [lia | exact H0].
    + intros [[st|] s'] w' HI; simpl in *; [done |].
      replace (a + Datatypes.S n)%nat with (Datatypes.S a + n)%nat by lia.
      apply IH; [done |]. intros k s'' w'' Hk. apply Hstep. lia.
Qed.

Lemma migrator_is_setup_event reloading n e :
  is_migrator_event e → is_setup_event reloading n e ∧ no_failure e.
Proof. by destruct e. Qed.

Lemma setup_worker_events parent reloading old_n i s (w : world E) :
  setup_step_ok reloading old_n i (length (snd s)) w
    (setup_worker K parent reloading old_n i s w).
Proof.
  destruct s as [ws old_ws].
  remember (setup_worker K parent reloading old_n i (ws, old_ws) w) as o eqn:Ho.
  unfold setup_worker, setup_worker_with, nc_clone_instance in Ho.
  unfold bind at 1 2 in Ho. unfold call at 1 in Ho.
  destruct (core_ctx_create K parent (env w)) as [[c|] e1]; simpl in Ho.
  2:{ unfold bind, log, ret in Ho. simpl in Ho. subst o.
      exists [LogCtxCreateFailed; EvClone i NC_ERROR]. simpl.
      split; [by rewrite <- app_assoc |].
      split; [by repeat constructor | done]. }
  unfold bind at 1 in Ho. unfold log at 1 in Ho. simpl in Ho.
  set (w1 := add_events [EvClone i NC_OK] (put_env e1 w)) in Ho.
  assert (trace w1 = trace w ++ [EvClone i NC_OK]) as Hw1 by done.
  clearbody w1.
  (* the migration block *)
  assert (∃ evm,
    Forall (is_setup_event reloading old_n) evm ∧ Forall no_failure evm ∧
    post (λ a w2, trace w2 = trace w1 ++ evm ∧ length (snd a) = length old_ws ∧
                  (reloading = true → (i < old_n)%nat → EvMigrateCall i ∈ evm))
         (λ w2, trace w2 = trace w1 ++ evm)
      ((if reloading && (i <? old_n)%nat
        then match old_ws !! i with
             | Some old_worker_nci =>
                 do _ <- log (EvMigrateCall i) ;
                 do r <- nc_migrate_proxies (assert_panic K) c (ctx old_worker_nci) ;
                 ret (set_ctx (snd (fst r)) (set_role ROLE_WORKER (set_ctx c parent)),
                      <[i := set_ctx (snd r) old_worker_nci]> old_ws)
             | None => stop Segv
             end
        else ret (set_role ROLE_WORKER (set_ctx c parent), old_ws)) w1))
    as (evm & Hsetup & Hnf & Hpost).
  { destruct (reloading && (i <? old_n)%nat) eqn:Hcond.
    - apply andb_true_iff in Hcond as [-> Hlt]. apply Nat.ltb_lt in Hlt.
      destruct (old_ws !! i) as [old|].
      + unfold bind at 1. unfold log at 1.
        destruct (nc_migrate_proxies_emits (assert_panic K) c (ctx old)
                    (add_events [EvMigrateCall i] w1)) as (em & Hem & Hall).
        exists (EvMigrateCall i :: em). split; [| split].
        * constructor; [done |]. eapply Forall_impl; [exact Hall |].
          intros e He. by apply migrator_is_setup_event.
        * constructor; [done |]. eapply Forall_impl; [exact Hall |].
          intros e He. by apply (migrator_is_setup_event true old_n).
        * unfold bind.
          destruct (nc_migrate_proxies _ _ _ _) as [r w2|r w2]; simpl in *;
            rewrite Hem, <- app_assoc; [split; [done |] | done].
          split; [by rewrite length_insert |].
          intros _ _. apply list_elem_of_here.
      + exists []. simpl. by rewrite app_nil_r.
    - exists []. simpl. rewrite app_nil_r. repeat split; try done.
      intros -> Hlt. apply Nat.ltb_lt in Hlt. by rewrite Hlt in Hcond. }
  unfold bind at 1 in Ho.
  match type of Hpost with
  | post _ _ ?blk => destruct blk as [[worker old_ws'] w2|r w2]
  end; simpl in Hpost.
  1: destruct Hpost as (Hpost & Hlen & Hcall).
  2:{ subst o. exists (EvClone i NC_OK :: evm). simpl. rewrite Hpost, Hw1.
      split; [by rewrite <- app_assoc |]. split; [by constructor | done]. }
  unfold bind at 1 in Ho. unfold call_heap at 1 in Ho.
  destruct (core_init_listener K worker (conns w2) (env w2)) as [[[st c'] h] e3].
  unfold bind at 1 in Ho. unfold log at 1 in Ho.
  exists (EvClone i NC_OK :: evm ++ [EvInitListener i st]).
  assert (Forall (is_setup_event reloading old_n)
            (EvClone i NC_OK :: evm ++ [EvInitListener i st])) as Hall.
  { constructor; [done |]. apply Forall_app. split; [done | by repeat constructor]. }
  destruct (decide (st = NC_OK)) as [->|Hne].
  - rewrite bool_decide_eq_true_2 in Ho by done. simpl in Ho. subst o. simpl.
    rewrite Hpost, Hw1. split; [by rewrite <- !app_assoc |]. split; [done |].
    split; [| split; [split; [| split] |]].
    + constructor; [done |]. apply Forall_app. split; [done | by repeat constructor].
    + apply list_elem_of_here.
    + apply list_elem_of_further, elem_of_app. right. apply list_elem_of_here.
    + intros Hr Hlt. apply list_elem_of_further, elem_of_app. left. by apply Hcall.
    + done.
  - rewrite bool_decide_eq_false_2 in Ho by done. simpl in Ho. subst o. simpl.
    rewrite Hpost, Hw1. split; [by rewrite <- !app_assoc |]. split; [done |].
    done.
Qed.

Lemma worker_ready_app reloading old_n evs evs' i :
  worker_ready reloading old_n evs i → worker_ready reloading old_n (evs ++ evs') i.
Proof.
  intros (Hc & Hb & Hm). repeat split; try (apply elem_of_app; by left).
  intros Hr Hlt. apply elem_of_app. left. by apply Hm.
Qed.

Lemma worker_ready_app_r reloading old_n evs evs' i :
  worker_ready reloading old_n evs' i → worker_ready reloading old_n (evs ++ evs') i.
Proof.
  intros (Hc & Hb & Hm). repeat split; try (apply elem_of_app; by right).
  intros Hr Hlt. apply elem_of_app. right. by apply Hm.
Qed.

Lemma setup_loop_post parent reloading old_n n ws old_ws (w0 : world E) :
  length old_ws = old_n →
  post (λ r w, match fst r with
               | None => setup_going reloading old_n w0 n (snd r) w
               | Some _ => setup_left reloading old_n w0 w
               end)
       (setup_left reloading old_n w0)
       (for_return (seq 0 n) (setup_worker K parent reloading old_n) (ws, old_ws) w0).
Proof.
  intros Hlen.
  apply (for_return_seq_inv (setup_going reloading old_n w0)
           (λ _ _, setup_left reloading old_n w0) (setup_left reloading old_n w0)).
  - exists []. rewrite app_nil_r. split; [done |]. split; [done |].
    split; [done |]. split; [| done]. intros i Hi. lia.
  - intros k s w _ (evs & Htr & Hall & Hnf & Hready & Hl).
    destruct (setup_worker_events parent reloading old_n k s w)
      as (evk & Htrk & Hallk & Hk).
    destruct (setup_worker K parent reloading old_n k s w) as [[[st|] s'] w'|r w'];
      simpl in *.
    + exists (evs ++ evk). rewrite Htrk, Htr, <- app_assoc.
      split; [done | by apply Forall_app].
    + destruct Hk as (Hnfk & Hrk & Hlk).
      exists (evs ++ evk). rewrite Htrk, Htr, <- app_assoc.
      split; [done |]. split; [by apply Forall_app |].
      split; [by apply Forall_app |]. split; [| congruence].
      intros i Hi. destruct (decide (i = k)) as [->|Hne].
      * by apply worker_ready_app_r.
      * apply worker_ready_app, Hready. lia.
    + exists (evs ++ evk). rewrite Htrk, Htr, <- app_assoc.
      split; [done | by apply Forall_app].
Qed.

Lemma nc_shutdown_workers_emits ws :
  emits is_shutdown_event (nc_shutdown_workers K ws).
Proof.
  unfold nc_shutdown_workers. emits_step; [| emits_step].
  apply emits_for_each. intros k s. unfold shutdown_worker.
  destruct (array_pop s) as [[x s']|]; [| emits_step].
  destruct (chan x); [| emits_step]. repeat emits_step.
  destruct (_ <=? _); emits_step.
Qed.

Lemma nc_setup_listener_for_workers_events parent reloading (w : world E) :
  ∃ evs,
    trace (final_world (nc_setup_listener_for_workers K parent reloading w))
    = trace w ++ evs ∧
    build_events reloading (if reloading then length (workers parent) else 0%nat)
      (Z.to_nat (worker_processes (ctx (self parent)))) evs.
Proof.
  unfold nc_setup_listener_for_workers.
  set (old_n := if reloading then length (workers parent) else 0%nat).
  set (n := Z.to_nat (worker_processes (ctx (self parent)))).
  unfold bind at 1. unfold call at 1.
  destruct (array_init K (worker_processes (ctx (self parent))) (env w)) as [st e1].
  destruct (decide (st = NC_OK)) as [->|Hne].
  2:{ rewrite bool_decide_eq_false_2 by done. simpl.
      exists [LogInitWorkersFailed]. split; [done |].
      exists [LogInitWorkersFailed], []. split; [done |].
      split; [by repeat constructor | by left]. }
  rewrite bool_decide_eq_true_2 by done. simpl.
  assert ((if reloading then length (if reloading then workers parent else [])
           else 0%nat) = old_n) as -> by (by destruct reloading).
  assert (length (if reloading then workers parent else []) = old_n) as Hold
    by (by destruct reloading).
  pose proof (setup_loop_post (self parent) reloading old_n n []
                (if reloading then workers parent else []) (put_env e1 w) Hold)
    as Hloop.
  unfold bind at 1. fold n.
  destruct (for_return _ _ _ _) as [[[st|] [ws old]] w1|r w1]; simpl in Hloop.
  - destruct Hloop as (evs & Htr & Hall).
    exists evs. split; [done |]. exists evs, []. rewrite app_nil_r.
    split; [done |]. split; [done | by left].
  - destruct Hloop as (evs & Htr & Hall & Hnf & Hready & Hlen). simpl in Hlen.
    destruct reloading.
    + unfold bind at 1 2 3. unfold log at 1.
      destruct (nc_shutdown_workers_emits old (add_events [EvShutdownCall (length old)] w1))
        as (sd & Hsd & Hsdall).
      exists (evs ++ EvShutdownCall old_n :: sd). split.
      * destruct (nc_shutdown_workers K old _) as [r w2|r w2]; simpl in *;
          rewrite Hsd, Htr, Hlen, <- !app_assoc; done.
      * exists evs, (EvShutdownCall old_n :: sd). split; [done |]. split; [done |].
        right. exists sd. done.
    + simpl. exists evs. split; [done |]. exists evs, []. rewrite app_nil_r.
      split; [done |]. split; [done | by left].
  - destruct Hloop as (evs & Htr & Hall).
    exists evs. split; [done |]. exists evs, []. rewrite app_nil_r.
    split; [done |]. split; [done | by left].
Qed.
End Setup.

(** C5: on a reload the shutdown sequencer is either not called at
    all, or called once, on the old generation, after a loop in which
    no clone and no bind step failed and every one of the [N] new
    workers was cloned, migrated (where the old generation has a worker
    of that index) and bound; and when a clone or a bind step fails the
    sequencer is not called. *)
Theorem shutdown_after_all_workers_bound {E} (K : collaborators E)
    (parent : master) (w : world E) :
  ∃ evs,
    trace (final_world (nc_setup_listener_for_workers K parent true w)) = trace w ++ evs ∧
    ((∀ k, EvShutdownCall k ∉ evs) ∨
     ∃ loop sd, evs = loop ++ EvShutdownCall (length (workers parent)) :: sd ∧
       (∀ k, EvShutdownCall k ∉ loop) ∧ (∀ k, EvShutdownCall k ∉ sd) ∧
       Forall no_failure loop ∧
       ∀ i, (i < Z.to_nat (worker_processes (ctx (self parent))))%nat →
            worker_ready true (length (workers parent)) loop i) ∧
    (∀ i st, EvClone i st ∈ evs ∨ EvInitListener i st ∈ evs → st ≠ NC_OK →
             ∀ k, EvShutdownCall k ∉ evs).
Proof.
  destruct (nc_setup_listener_for_workers_events K parent true w)
    as (evs & Htr & loop & tail & -> & Hall & Htail).
  assert (∀ k, EvShutdownCall k ∉ loop) as Hloop.
  { intros k Hin. rewrite Forall_forall in Hall. by apply Hall in Hin. }
  exists (loop ++ tail). split; [done |].
  destruct Htail as [->|(sd & -> & _ & Hsd & Hnf & Hready)].
  - rewrite app_nil_r. split; [by left |]. intros i st _ _. apply Hloop.
  - assert (∀ k, EvShutdownCall k ∉ sd) as Hsd'.
    { intros k Hin. rewrite Forall_forall in Hsd. by apply Hsd in Hin. }
    split.
    + right. exists loop, sd. done.
    + intros i st Hin Hne. exfalso.
      rewrite Forall_forall in Hnf. rewrite Forall_forall in Hsd.
      destruct Hin as [Hin|Hin];
        apply elem_of_app in Hin as [Hin|Hin];
        try (apply Hnf in Hin; simpl in Hin; done);
        apply elem_of_cons in Hin as [Hin|Hin]; try discriminate;
        by apply Hsd in Hin.
Qed.

(** C7: on a reload the migrator is only called for worker indices
    below the size [M] of the old generation; and for an index
    [i >= M] the iteration of the builder is the iteration of a fresh
    build: it consults no migration source and fails only where a
    fresh build fails. *)
Theorem no_migration_beyond_old_generation {E} (K : collaborators E)
    (parent : master) (w : world E) :
  (∃ evs,
     trace (final_world (nc_setup_listener_for_workers K parent true w)) = trace w ++ evs ∧
     ∀ i, EvMigrateCall i ∈ evs → (i < length (workers parent))%nat) ∧
  (∀ i s (w' : world E), (length (workers parent) ≤ i)%nat →
     setup_worker K (self parent) true (length (workers parent)) i s w'
     = setup_worker K (self parent) false 0 i s w').
Proof.
  split.
  - destruct (nc_setup_listener_for_workers_events K parent true w)
      as (evs & Htr & loop & tail & -> & Hall & Htail).
    exists (loop ++ tail). split; [done |].
    intros i Hin. rewrite Forall_forall in Hall.
    apply elem_of_app in Hin as [Hin|Hin].
    + apply Hall in Hin. simpl in Hin. by destruct Hin.
    + destruct Htail as [->|(sd & -> & _ & Hsd & _)].
      * by apply elem_of_nil in Hin.
      * apply elem_of_cons in Hin as [Hin|Hin]; [discriminate |].
        rewrite Forall_forall in Hsd. by apply Hsd in Hin.
  - intros i [ws old_ws] w' Hi. unfold setup_worker, setup_worker_with.
    rewrite (proj2 (Nat.ltb_ge i (length (workers parent)))) by done.
    reflexivity.
Qed.

(** ** Spawning and the master loop *)

Section Spawn.
Context {E : Type} (K : collaborators E).







End Spawn.


(** ** When the migrator returns *)

Section Returns.
Context {E : Type}.
Variables (dctx : nat) (dst0 src0 : list server_pool).
Hypothesis Hlive : ∀ i sp, src0 !! i = Some sp → p_conn sp ≠ None.
Hypothesis Hdistinct : NoDup (addrstr <$> dst0).

Implicit Types (s : list server_pool * list server_pool) (w : world E).

Lemma live_pair_step i j s w :
  (i < length src0)%nat → (j < length dst0)%nat →
  live_row dst0 src0 i j s w → post (live_row dst0 src0 i (S j)) never (migrate_pair dctx i j s w).
Proof.
  intros Hi Hj (Hsh & Hlater & Hcur). destruct s as [dst src].
  destruct (same_addrs_lookup dst0 src0 (dst, src) i j Hsh Hi Hj)
    as (sp & dp & sp0 & dp0 & Hsp & Hdp & Hsp0 & Hdp0 & Hspa & Hdpa).
  simpl in *.
  assert ((∃ sp, src !! i = Some sp ∧ p_conn sp ≠ None) ∨
          ∃ j' dp sp0, (j' < S j)%nat ∧ dst0 !! j' = Some dp ∧ src0 !! i = Some sp0 ∧
                       addrstr dp = addrstr sp0) as Hcur'.
  { destruct Hcur as [H|(j' & dp' & sp0' & Hj' & H)]; [by left |].
    right. exists j', dp', sp0'. split; [lia | done]. }
  pose proof (migrate_pair_cases dctx i j dst src w sp dp Hsp Hdp) as Hcase.
  inversion Hcase as [Hne Ho|c' Heq Hc Ho|Heq Hc Hsc Ho|cn Heq Hc Hsc Ho]; simpl.
  - done.
  - done.
  - destruct Hcur as [(sp' & Hsp' & Hlive')|(j' & dp' & sp0' & Hj' & Hdp' & Hsp0' & Heq')].
    + congruence.
    + assert (j' = j); [| lia].
      eapply (NoDup_lookup _ _ _ (addrstr dp0) Hdistinct).
      * rewrite list_lookup_fmap, Hdp'. simpl. congruence.
      * by rewrite list_lookup_fmap, Hdp0.
  - split; [by apply same_addrs_move |]. simpl. split.
    + intros i' sp' Hi' Hlk. rewrite list_lookup_insert_ne in Hlk by lia.
      by eapply Hlater.
    + right. exists j, dp0, sp0. split; [lia |]. split; [done |]. split; [done |].
      congruence.
Qed.

Lemma live_row_step i s w :
  (i < length src0)%nat →
  live_from dst0 src0 i s w →
  post (live_from dst0 src0 (S i)) never (migrate_row dctx (length (fst s)) i s w).
Proof.
  intros Hi (Hsh & Hlive'). unfold migrate_row.
  rewrite (same_addrs_length dst0 src0 s Hsh).
  assert (length (snd s) = length src0) as Hls.
  { destruct Hsh as [_ Hs]. by rewrite <- (length_fmap addrstr), Hs, length_fmap. }
  eapply post_mono; [apply (for_each_seq_inv (live_row dst0 src0 i) never) | | done].
  - split; [done |]. split.
    + intros i' sp Hi'. apply Hlive'. lia.
    + left. destruct (lookup_lt_is_Some_2 (snd s) i) as [sp Hsp]; [lia |].
      exists sp. split; [done |]. by eapply Hlive'.
  - intros j s' w' Hj. apply live_pair_step; [done | lia].
  - intros s' w' (Hsh' & Hlater & _). split; [done |].
    intros i' sp Hi'. apply Hlater. lia.
Qed.

Lemma live_loops w :
  post (live_from dst0 src0 (length src0)) never (migrate_loops dctx (dst0, src0) w).
Proof.
  unfold migrate_loops. simpl.
  apply (for_each_seq_inv (live_from dst0 src0) never).
  - split; [done |]. intros i' sp _. apply Hlive.
  - intros i s w' [_ Hi]. apply live_row_step. lia.
Qed.

Lemma migrate_loops_return w :
  ∃ s w', migrate_loops dctx (dst0, src0) w = Ret s w'.
Proof.
  pose proof (live_loops w) as H.
  destruct (migrate_loops dctx (dst0, src0) w) as [s w'|r w']; [by eauto | done].
Qed.
End Returns.

Section Ignored.
Context {E : Type} (K : collaborators E).

Lemma setup_worker_ignores_status f parent reloading old_n i s (w : world E) :
  setup_worker_with K (with_status f (nc_migrate_proxies (assert_panic K)))
    parent reloading old_n i s w
  = setup_worker K parent reloading old_n i s w.
Proof.
  destruct s as [ws old_ws].
  unfold setup_worker, setup_worker_with, with_status, nc_clone_instance,
    bind, call, log, ret.
  destruct (core_ctx_create K parent (env w)) as [[c|] e1]; simpl; [| done].
  destruct (reloading && (i <? old_n)%nat); [| done].
  destruct (old_ws !! i) as [old|]; [| done].
  destruct (nc_migrate_proxies (assert_panic K) _ _ _) as [[[st d'] s'] w2|r w2]; done.
Qed.
End Ignored.

(** C9 (amended): a call of the migrator that returns, returns
    [NC_OK]; it does return when both pool arrays are non-empty, every
    source pool holds a live connection and the destination pools carry
    pairwise distinct bind addresses (name changes and skipped pairs
    only log); and the builder ignores the status: its iteration is the
    same whatever status the migrator hands back. *)
Theorem migrate_status_never_rejects {E} (K : collaborators E) (panic : bool)
    (dst src : context) (w : world E) :
  (∀ st dst' src' w',
     nc_migrate_proxies panic dst src w = Ret (st, dst', src') w' → st = NC_OK) ∧
  (pool src ≠ [] → pool dst ≠ [] →
   (∀ i sp, pool src !! i = Some sp → p_conn sp ≠ None) →
   NoDup (addrstr <$> pool dst) →
   ∃ dst' src' w', nc_migrate_proxies panic dst src w = Ret (NC_OK, dst', src') w') ∧
  (∀ f parent reloading old_n i s (w1 : world E),
     setup_worker_with K (with_status f (nc_migrate_proxies (assert_panic K)))
       parent reloading old_n i s w1
     = setup_worker K parent reloading old_n i s w1).
Proof.
  split; [| split].
  - intros st dst' src' w' Hrun.
    destruct (panic_cases panic dst src) as [[-> Hempty]|Hok].
    { rewrite nc_migrate_proxies_abort in Hrun by done. discriminate. }
    rewrite nc_migrate_proxies_run in Hrun by done. unfold bind in Hrun.
    destruct (migrate_loops _ _ _) as [s1 w1|r w1]; [| discriminate].
    by inversion Hrun.
  - intros Hs Hd Hlive Hdistinct.
    rewrite nc_migrate_proxies_run by (by right).
    destruct (migrate_loops_return (ctx_addr dst) (pool dst) (pool src) Hlive Hdistinct
                (add_events (migrate_asserts dst src) w)) as (s1 & w1 & Hloops).
    unfold bind. rewrite Hloops. by do 3 eexists.
  - intros. apply setup_worker_ignores_status.
Qed.

(** The migrator does not return [NC_OK] on every input: with
    panicking assertions a call whose source context has no pool
    aborts. *)
Lemma migrate_not_always_ok :
  (∃ w', nc_migrate_proxies true ex_dst1 (set_pool [] ex_src1) ex_world = Stop Abort w') ∧
  ¬ (∀ (panic : bool) (dst src : context) (w : world unit),
       ∃ dst' src' w', nc_migrate_proxies panic dst src w = Ret (NC_OK, dst', src') w').
Proof.
  split; [by eexists |]. intros H.
  destruct (H true ex_dst1 (set_pool [] ex_src1) ex_world) as (d & s & w' & Hrun).
  discriminate.
Qed.

(** ** Reload whose bind step fails *)

Section FailedReload.
Context {E : Type} (K : collaborators E).

Lemma setup_keeps_self parent reloading st parent' (w w' : world E) :
  nc_setup_listener_for_workers K parent reloading w = Ret (st, parent') w' →
  self parent' = self parent.
Proof.
  unfold nc_setup_listener_for_workers. unfold bind at 1. unfold call at 1.
  destruct (array_init K _ (env w)) as [st0 e1].
  destruct (negb (bool_decide (st0 = NC_OK))).
  { unfold bind, log, ret. intros H. by inversion H. }
  unfold bind at 1.
  destruct (for_return _ _ _ _) as [[[st1|] [ws old]] w1|r w1]; [| | discriminate].
  - unfold ret. intros H. by inversion H.
  - destruct reloading.
    + unfold bind, log, ret.
      destruct (nc_shutdown_workers K old _) as [r w2|r w2]; [| discriminate].
      intros H. by inversion H.
    + unfold bind, ret. intros H. by inversion H.
Qed.

(** The part of the rollback the master loop does perform: a reload
    that ends with [continue] leaves the master's own instance, its
    context included, as it was. *)
Lemma failed_reload_keeps_context parent parent' (w w' : world E) :
  reload_phase K parent w = Ret (true, parent') w' →
  self parent' = self parent.
Proof.
  unfold reload_phase. unfold bind at 1. unfold get at 1.
  destruct (pm_reload w); [| unfold ret; intros H; by inversion H].
  unfold bind at 1 2 3. unfold set_pm_reload at 1. unfold log at 1. unfold call at 1.
  destruct (core_ctx_create K (self parent) _) as [[c|] e1].
  - unfold bind at 1.
    destruct (nc_setup_listener_for_workers K _ true _) as [[st p1] w1|r w1] eqn:Hsetup;
      [| discriminate].
    apply setup_keeps_self in Hsetup. simpl in Hsetup.
    destruct (negb (bool_decide (st = NC_OK))).
    + unfold ret. intros H. inversion H; subst. simpl. rewrite Hsetup.
      by destruct (self parent).
    + unfold bind, set_pm_respawn, ret. intros H. by inversion H.
  - unfold bind, log, ret. intros H. by inversion H.
Qed.
End FailedReload.

(** C2: one worker, one bound pool; the master starts, spawns, and is
    asked to reload; the bind step of the new worker fails.  The
    builder fails and the master gets its old context back, but its
    [workers] array now holds the half-built generation: the new
    worker, never spawned and without a channel, owns the listening
    connection that was migrated to it, and the descriptor of the
    running worker is gone without having been shut down. *)
Theorem failed_reload_installs_partial_generation :
  ∃ w',
    ex_two_passes (ex_start [NC_OK; NC_ERROR] [] [])
    = Ret (set_workers [ex_running_worker] ex_parent,
           set_workers [ex_half_built_worker] ex_parent) w' ∧
    conns w' !! 7%nat = Some (PoolPtr 22 0) ∧
    trace w' =
      [EvClone 0 NC_OK; EvInitListener 0 NC_OK; EvAllocChannel 0 true; EvFork 0 100;
       LogWorkerStarted 100; EvSigsuspend; LogReloading; EvClone 0 NC_OK;
       EvMigrateCall 0; LogMigrate 0 0; EvInitListener 0 NC_ERROR].
Proof.
  exists (final_world (ex_two_passes (ex_start [NC_OK; NC_ERROR] [] []))).
  split; [vm_compute; reflexivity | by vm_compute].
Qed.

(** What the half-built generation leads to: at the next reload it is
    taken for the old generation, and the shutdown sequencer
    dereferences the channel its worker never got. *)
Lemma reload_after_failed_reload_segv :
  ∃ w', nc_multi_processes_cycle ex_K 4 ex_parent (ex_start [NC_OK; NC_ERROR; NC_OK] [] [])
        = Stop Segv w'.
Proof.
  exists (final_world (nc_multi_processes_cycle ex_K 4 ex_parent
                         (ex_start [NC_OK; NC_ERROR; NC_OK] [] []))).
  vm_compute. reflexivity.
Qed.

(** ** Instances of the theorems *)

Lemma migrate_no_duplication_witness :
  ∃ w'', migrate_pair 2 1 0
           ([ServerPool "alpha" ex_addr (Some 7%nat)],
            [ServerPool "alpha" ex_addr None; ServerPool "beta" ex_addr (Some 8%nat)])
           ex_world
         = Ret ([ServerPool "alpha" ex_addr (Some 7%nat)],
                [ServerPool "alpha" ex_addr None; ServerPool "beta" ex_addr (Some 8%nat)])
               w'' ∧
         conns w'' = conns ex_world ∧
         trace w'' = trace ex_world ++
           name_change 1 0 (ServerPool "alpha" ex_addr (Some 7%nat))
                       (ServerPool "beta" ex_addr (Some 8%nat))
           ++ [LogInitialized 1 0].
Proof.
  destruct (migrate_no_duplication false ex_dst1 ex_src2 ex_world) as [_ Hskip].
  apply (Hskip 1%nat 0%nat _ _ _ _ 7%nat); reflexivity.
Defined.

Lemma shutdown_complete_witness :
  ∃ w' ns,
    nc_shutdown_workers ex_K
      [Instance ROLE_WORKER 100 (Context 20 1 []) (Some (Channel 3 4));
       Instance ROLE_WORKER 101 (Context 21 1 []) (Some (Channel 5 6))]
      (ex_start [] [] [])
    = Ret (NC_OK, []) w' ∧
    length ns = 2%nat ∧
    trace w' = trace (ex_start [] [] []) ++
      concat (zip_with shutdown_events
        (reverse [Instance ROLE_WORKER 100 (Context 20 1 []) (Some (Channel 3 4));
                  Instance ROLE_WORKER 101 (Context 21 1 []) (Some (Channel 5 6))]) ns) ∧
    count_write_quit
      (concat (zip_with shutdown_events
        (reverse [Instance ROLE_WORKER 100 (Context 20 1 []) (Some (Channel 3 4));
                  Instance ROLE_WORKER 101 (Context 21 1 []) (Some (Channel 5 6))]) ns))
    = 2%nat.
Proof.
  apply (shutdown_complete ex_K
           [Instance ROLE_WORKER 100 (Context 20 1 []) (Some (Channel 3 4));
            Instance ROLE_WORKER 101 (Context 21 1 []) (Some (Channel 5 6))]
           (ex_start [] [] [])).
  repeat constructor; discriminate.
Defined.


Lemma migrate_status_never_rejects_witness :
  ∃ dst' src' w', nc_migrate_proxies false ex_dst1 ex_src1 (ex_start [] [] [])
                  = Ret (NC_OK, dst', src') w'.
Proof.
  destruct (migrate_status_never_rejects ex_K false ex_dst1 ex_src1 (ex_start [] [] []))
    as (_ & Hret & _).
  apply Hret.
  - discriminate.
  - discriminate.
  - intros [|i] sp Hlk; [by inversion Hlk | discriminate].
  - apply NoDup_singleton.
Defined.

(** * Further properties *)

(** ** What the migrator keeps *)

Lemma omap_insert_gain {A B} (f : A → option B) (l : list A) k x y c :
  l !! k = Some x → f x = None → f y = Some c →
  omap f (<[k := y]> l) ≡ₚ c :: omap f l.
Proof.
  intros Hl Hx Hy. rewrite insert_take_drop by (by eapply lookup_lt_Some).
  rewrite <- (take_drop_middle l k x Hl) at 3.
  rewrite !omap_app. simpl. rewrite Hx, Hy.
  symmetry. apply Permutation_middle.
Qed.

Lemma omap_insert_lose {A B} (f : A → option B) (l : list A) k x y c :
  l !! k = Some x → f x = Some c → f y = None →
  c :: omap f (<[k := y]> l) ≡ₚ omap f l.
Proof.
  intros Hl Hx Hy. rewrite insert_take_drop by (by eapply lookup_lt_Some).
  rewrite <- (take_drop_middle l k x Hl) at 3.
  rewrite !omap_app. simpl. rewrite Hx, Hy.
  apply Permutation_middle.
Qed.

Lemma static_addrs (l l0 : list server_pool) :
  static <$> l = static <$> l0 →
  name <$> l = name <$> l0 ∧ addrstr <$> l = addrstr <$> l0.
Proof.
  intros H. split.
  - change name with (fst ∘ static). by rewrite !list_fmap_compose, H.
  - change addrstr with (snd ∘ static). by rewrite !list_fmap_compose, H.
Qed.

Lemma fmap_static_insert (l : list server_pool) k p c :
  l !! k = Some p → static <$> <[k := set_p_conn c p]> l = static <$> l.
Proof.
  intros Hl. rewrite list_fmap_insert. simpl.
  apply list_insert_id. by rewrite list_lookup_fmap, Hl.
Qed.

Section Frame.
Context {E : Type}.
Variables (c : nat) (dst0 src0 : list server_pool) (w0 : world E).

Lemma same_process_events evs (w : world E) :
  same_process w0 w → same_process w0 (add_events evs w).
Proof. done. Qed.

Lemma mig_frame_step i j s w :
  (i < length src0)%nat → (j < length dst0)%nat →
  mig_frame dst0 src0 w0 s w →
  post (mig_frame dst0 src0 w0) (mig_frame_stopped src0 w0) (migrate_pair c i j s w).
Proof.
  destruct s as [dst src]. intros Hi Hj [Hsd Hss Hheld Hdst Hsrc Hclr Hproc Hown].
  simpl in *.
  destruct (static_addrs _ _ Hsd) as [_ Hda].
  destruct (static_addrs _ _ Hss) as [_ Hsa].
  destruct (lookup_lt_is_Some_2 src i) as [sp Hsp].
  { by rewrite <- (length_fmap static), Hss, length_fmap. }
  destruct (lookup_lt_is_Some_2 dst j) as [dp Hdp].
  { by rewrite <- (length_fmap static), Hsd, length_fmap. }
  destruct (lookup_fmap_addr _ _ _ _ Hsa Hsp) as (sp0 & Hsp0 & Hspa).
  destruct (lookup_fmap_addr _ _ _ _ Hda Hdp) as (dp0 & Hdp0 & Hdpa).
  pose proof (migrate_pair_cases c i j dst src w sp dp Hsp Hdp) as Hcase.
  inversion Hcase as [Hne Ho|c' Heq Hc Ho|Heq Hc Hsc Ho|cn Heq Hc Hsc Ho]; simpl.
  - by split.
  - by split.
  - by split.
  - assert (sp = sp0) as ->.
    { destruct (Hclr _ _ Hsp) as (sp1 & Hsp1 & [->| ->]); [congruence | done]. }
    split; simpl.
    + rewrite <- Hsd. by apply fmap_static_insert.
    + rewrite <- Hss. by apply fmap_static_insert.
    + rewrite <- Hheld. unfold held. simpl. rewrite !omap_app.
      rewrite (omap_insert_gain p_conn dst j dp _ cn) by done.
      simpl. rewrite Permutation_middle.
      by rewrite (omap_insert_lose p_conn src i sp0 _ cn).
    + intros j' dp1 Hdp1 Hpre. destruct (decide (j' = j)) as [->|Hnj].
      * exfalso. pose proof (Hdst _ _ Hdp1 Hpre) as Hold.
        assert (dp1 = dp) as -> by congruence.
        destruct Hpre as [[c1 Hc1]|Hno]; [congruence |].
        apply (Hno sp0); [by eapply list_elem_of_lookup_2 | congruence].
      * rewrite list_lookup_insert_ne by done. by apply Hdst.
    + intros i' sp1 Hsp1 Hpre. destruct (decide (i' = i)) as [->|Hni].
      * exfalso. assert (sp1 = sp0) as -> by congruence.
        apply (Hpre dp0); [by eapply list_elem_of_lookup_2 | congruence].
      * rewrite list_lookup_insert_ne by done. by apply Hsrc.
    + intros i' sp1 Hsp1.
      apply list_lookup_insert_Some in Hsp1 as [(-> & <- & _)|[_ Hsp1]].
      * exists sp0. split; [done | by right].
      * by apply Hclr.
    + done.
    + intros c1 Hc1. simpl. rewrite lookup_insert_ne; [by apply Hown |].
      intros ->. apply (Hc1 sp0); [by eapply list_elem_of_lookup_2 | done].
Qed.

Lemma mig_frame_loops :
  post (mig_frame dst0 src0 w0) (mig_frame_stopped src0 w0)
       (migrate_loops c (dst0, src0) w0).
Proof.
  unfold migrate_loops. simpl.
  apply (for_each_seq_inv (λ _, mig_frame dst0 src0 w0) (mig_frame_stopped src0 w0)).
  - split; simpl; try done.
    + intros i sp Hsp. exists sp. split; [done | by left].
  - intros i s w [_ Hi] Hinv. unfold migrate_row.
    assert (length (fst s) = length dst0) as ->.
    { by rewrite <- (length_fmap static), (mf_static_dst _ _ _ _ _ Hinv), length_fmap. }
    apply (for_each_seq_inv (λ _, mig_frame dst0 src0 w0) (mig_frame_stopped src0 w0));
      [done |].
    intros j s' w' [_ Hj] Hinv'. apply mig_frame_step; [lia | lia | done].
Qed.
End Frame.

Lemma set_pool_pool (c : context) : set_pool (pool c) c = c.
Proof. by destruct c. Qed.

Section MigrateReturn.
Context {E : Type}.

Lemma nc_migrate_proxies_ret panic (dst src dst' src' : context) st (w w' : world E) :
  nc_migrate_proxies panic dst src w = Ret (st, dst', src') w' →
  (panic = false ∨ (pool src ≠ [] ∧ pool dst ≠ [])) ∧
  st = NC_OK ∧ dst' = set_pool (pool dst') dst ∧ src' = set_pool (pool src') src ∧
  migrate_loops (ctx_addr dst) (pool dst, pool src)
    (add_events (migrate_asserts dst src) w) = Ret (pool dst', pool src') w'.
Proof.
  intros Hrun.
  destruct (panic_cases panic dst src) as [[-> Hempty]|Hok].
  { rewrite nc_migrate_proxies_abort in Hrun by done. discriminate. }
  split; [done |].
  rewrite nc_migrate_proxies_run in Hrun by done. unfold bind in Hrun.
  destruct (migrate_loops _ _ _) as [[d1 s1] w1|r w1]; [| discriminate].
  inversion Hrun; subst. done.
Qed.

Lemma mig_frame_of_return panic (dst src dst' src' : context) st (w w' : world E) :
  nc_migrate_proxies panic dst src w = Ret (st, dst', src') w' →
  mig_frame (pool dst) (pool src) (add_events (migrate_asserts dst src) w)
            (pool dst', pool src') w'.
Proof.
  intros Hrun. apply nc_migrate_proxies_ret in Hrun as (_ & _ & _ & _ & Hloops).
  pose proof (mig_frame_loops (ctx_addr dst) (pool dst) (pool src)
                (add_events (migrate_asserts dst src) w)) as Hpost.
  by rewrite Hloops in Hpost.
Qed.

Lemma matched_connected_of_return panic (dst src dst' src' : context) st (w w' : world E) :
  nc_migrate_proxies panic dst src w = Ret (st, dst', src') w' →
  all_matched_connected (pool dst') (pool src).
Proof.
  intros Hrun. apply nc_migrate_proxies_ret in Hrun as (_ & _ & _ & _ & Hloops).
  pose proof (mig_loops_post (ctx_addr dst) (pool dst) (pool src)
                (add_events (migrate_asserts dst src) w)) as Hpost.
  rewrite Hloops in Hpost. destruct Hpost as (evs & _ & _ & Hrows). simpl in Hrows.
  intros i j sp dp Hsp Hdp Heq. eapply Hrows; [| done | done | done].
  by eapply lookup_lt_Some.
Qed.

(** On a state where every matched destination is connected the loops
    transfer nothing. *)
Lemma mig_again_loops c (s1 : list server_pool * list server_pool) (w1 : world E) :
  all_matched_connected (fst s1) (snd s1) →
  post (mig_again s1 w1) never (migrate_loops c s1 w1).
Proof.
  intros Hconn. unfold migrate_loops.
  apply (for_each_seq_inv (λ _, mig_again s1 w1) never); [done |].
  intros i s w [_ Hi] [-> Hw]. unfold migrate_row.
  apply (for_each_seq_inv (λ _, mig_again s1 w1) never); [done |].
  intros j s w' [_ Hj] [-> Hw']. destruct s1 as [dst src]. simpl in *.
  destruct (lookup_lt_is_Some_2 src i) as [sp Hsp]; [lia |].
  destruct (lookup_lt_is_Some_2 dst j) as [dp Hdp]; [lia |].
  pose proof (migrate_pair_cases c i j dst src w' sp dp Hsp Hdp) as Hcase.
  inversion Hcase as [Hne Ho|c' Heq Hc Ho|Heq Hc Hsc Ho|cn Heq Hc Hsc Ho]; simpl.
  - done.
  - done.
  - by apply (Hconn i j sp dp).
  - exfalso. by apply (Hconn i j sp dp).
Qed.
End MigrateReturn.

(** X1: a call of the migrator that returns has changed no name, no
    bind address and no array length, on either side, and leaves the
    address and the worker count of both contexts: of a pool only the
    connection reference is ever written. *)
Theorem migrate_changes_only_connections {E} (panic : bool)
    (dst src dst' src' : context) (st : rstatus_t) (w w' : world E) :
  nc_migrate_proxies panic dst src w = Ret (st, dst', src') w' →
  static <$> pool dst' = static <$> pool dst ∧
  static <$> pool src' = static <$> pool src ∧
  length (pool dst') = length (pool dst) ∧ length (pool src') = length (pool src) ∧
  ctx_addr dst' = ctx_addr dst ∧ worker_processes dst' = worker_processes dst ∧
  ctx_addr src' = ctx_addr src ∧ worker_processes src' = worker_processes src.
Proof.
  intros Hrun. pose proof (mig_frame_of_return _ _ _ _ _ _ _ _ Hrun) as Hf.
  apply nc_migrate_proxies_ret in Hrun as (_ & _ & Hd & Hs & _).
  pose proof (mf_static_dst _ _ _ _ _ Hf) as Hsd.
  pose proof (mf_static_src _ _ _ _ _ Hf) as Hss. simpl in Hsd, Hss.
  split; [done |]. split; [done |].
  split; [by rewrite <- (length_fmap static), Hsd, length_fmap |].
  split; [by rewrite <- (length_fmap static), Hss, length_fmap |].
  rewrite Hd, Hs. done.
Qed.

(** X2: a call that returns neither loses nor duplicates a connection:
    the connection references held by the two contexts together are
    the same after the call as before, counted with repetitions. *)
Theorem migrate_conserves_connections {E} (panic : bool)
    (dst src dst' src' : context) (st : rstatus_t) (w w' : world E) :
  nc_migrate_proxies panic dst src w = Ret (st, dst', src') w' →
  held (pool dst', pool src') ≡ₚ held (pool dst, pool src).
Proof.
  intros Hrun. apply (mf_held _ _ _ _ _ (mig_frame_of_return _ _ _ _ _ _ _ _ Hrun)).
Qed.

(** X3: after a call that returns, every destination pool whose bind
    address is carried by some source pool owns a connection. *)
Theorem migrate_connects_matched {E} (panic : bool)
    (dst src dst' src' : context) (st : rstatus_t) (w w' : world E)
    (i j : nat) (s d' : server_pool) :
  nc_migrate_proxies panic dst src w = Ret (st, dst', src') w' →
  pool src !! i = Some s → pool dst' !! j = Some d' → addrstr d' = addrstr s →
  is_Some (p_conn d').
Proof.
  intros Hrun Hs Hd Heq.
  pose proof (matched_connected_of_return _ _ _ _ _ _ _ _ Hrun i j s d' Hs Hd Heq).
  by destruct (p_conn d').
Qed.

(** X4: a call that returns leaves alone every destination pool that
    already owned a connection, every destination pool whose address no
    source pool carries, and every source pool whose address no
    destination pool carries; a source pool is either unchanged or has
    lost its connection. *)
Theorem migrate_leaves_unmatched {E} (panic : bool)
    (dst src dst' src' : context) (st : rstatus_t) (w w' : world E) :
  nc_migrate_proxies panic dst src w = Ret (st, dst', src') w' →
  (∀ j d, pool dst !! j = Some d → is_Some (p_conn d) → pool dst' !! j = Some d) ∧
  (∀ j d, pool dst !! j = Some d → (∀ s, s ∈ pool src → addrstr s ≠ addrstr d) →
          pool dst' !! j = Some d) ∧
  (∀ i s, pool src !! i = Some s → (∀ d, d ∈ pool dst → addrstr d ≠ addrstr s) →
          pool src' !! i = Some s) ∧
  (∀ i s', pool src' !! i = Some s' →
           ∃ s, pool src !! i = Some s ∧ (s' = s ∨ s' = set_p_conn None s)).
Proof.
  intros Hrun. pose proof (mig_frame_of_return _ _ _ _ _ _ _ _ Hrun) as Hf.
  split; [| split; [| split]].
  - intros j d Hd Hc. apply (mf_dst _ _ _ _ _ Hf j d Hd). by left.
  - intros j d Hd Hno. apply (mf_dst _ _ _ _ _ Hf j d Hd). by right.
  - intros i s Hs Hno. by apply (mf_src _ _ _ _ _ Hf i s Hs).
  - intros i s' Hs'. by apply (mf_cleared _ _ _ _ _ Hf i s' Hs').
Qed.

(** X5: whatever its outcome, a call of the migrator leaves the
    process-wide flags and the state of every collaborator as they
    were, and writes the owner of no connection other than those the
    source pools reference. *)
Theorem migrate_touches_nothing_else {E} (panic : bool) (dst src : context)
    (w : world E) :
  same_process w (final_world (nc_migrate_proxies panic dst src w)) ∧
  same_owners (pool src) w (final_world (nc_migrate_proxies panic dst src w)).
Proof.
  destruct (panic_cases panic dst src) as [[-> Hempty]|Hok].
  - rewrite nc_migrate_proxies_abort by done. done.
  - rewrite nc_migrate_proxies_run by done.
    rewrite (final_world_bind_ret _ (λ s, (NC_OK, set_pool (fst s) dst, set_pool (snd s) src))).
    pose proof (mig_frame_loops (ctx_addr dst) (pool dst) (pool src)
                  (add_events (migrate_asserts dst src) w)) as Hpost.
    destruct (migrate_loops _ _ _) as [s1 w1|r w1]; simpl in *.
    + split; [apply (mf_process _ _ _ _ _ Hpost) | apply (mf_owners _ _ _ _ _ Hpost)].
    + done.
Qed.

(** X6: the migrator is idempotent: called again on the two contexts a
    first call returned, it returns [NC_OK] with the same two contexts
    and the same owners; nothing is transferred twice. *)
Theorem migrate_idempotent {E} (panic : bool)
    (dst src dst' src' : context) (st : rstatus_t) (w w' : world E) :
  nc_migrate_proxies panic dst src w = Ret (st, dst', src') w' →
  ∃ w'', nc_migrate_proxies panic dst' src' w' = Ret (NC_OK, dst', src') w'' ∧
         conns w'' = conns w'.
Proof.
  intros Hrun.
  pose proof (mig_frame_of_return _ _ _ _ _ _ _ _ Hrun) as Hf.
  pose proof (matched_connected_of_return _ _ _ _ _ _ _ _ Hrun) as Hconn.
  pose proof (mf_static_dst _ _ _ _ _ Hf) as Hsd.
  pose proof (mf_static_src _ _ _ _ _ Hf) as Hss. simpl in Hsd, Hss.
  apply nc_migrate_proxies_ret in Hrun as (Hok & _ & Hd & Hs & _).
  assert (panic = false ∨ (pool src' ≠ [] ∧ pool dst' ≠ [])) as Hok'.
  { destruct Hok as [?|[Hs0 Hd0]]; [by left | right]. split.
    - intros H0. apply Hs0. apply (f_equal (fmap static)) in H0.
      rewrite Hss in H0. by apply fmap_nil_inv in H0.
    - intros H0. apply Hd0. apply (f_equal (fmap static)) in H0.
      rewrite Hsd in H0. by apply fmap_nil_inv in H0. }
  assert (all_matched_connected (pool dst') (pool src')) as Hconn'.
  { intros i j sp dp Hsp Hdp Heq.
    destruct (static_addrs _ _ Hss) as [_ Hsa].
    destruct (lookup_fmap_addr _ _ _ _ Hsa Hsp) as (sp0 & Hsp0 & Hspa).
    apply (Hconn i j sp0 dp Hsp0 Hdp). congruence. }
  rewrite nc_migrate_proxies_run by done. unfold bind.
  pose proof (mig_again_loops (ctx_addr dst') (pool dst', pool src')
                (add_events (migrate_asserts dst' src') w') Hconn') as Hpost.
  destruct (migrate_loops _ _ _) as [s1 w1|r w1]; simpl in Hpost; [| done].
  destruct Hpost as [-> Hw1]. exists w1. simpl. split; [| done].
  unfold ret. by rewrite !set_pool_pool.
Qed.

(** ** What a build yields *)

Section BuildShape.
Context {E : Type} (K : collaborators E).

Lemma setup_worker_shape parent reloading old_n i ws old_ws (w : world E) :
  setup_step_shape parent ws (setup_worker K parent reloading old_n i (ws, old_ws) w).
Proof.
  remember (setup_worker K parent reloading old_n i (ws, old_ws) w) as o eqn:Ho.
  unfold setup_worker, setup_worker_with, nc_clone_instance in Ho.
  unfold bind at 1 2 in Ho. unfold call at 1 in Ho.
  destruct (core_ctx_create K parent (env w)) as [[c|] e1]; simpl in Ho.
  2:{ unfold bind, log, ret in Ho. simpl in Ho. subst o. simpl.
      split; [done | by eexists]. }
  unfold bind at 1 in Ho. unfold log at 1 in Ho. simpl in Ho.
  set (w1 := add_events [EvClone i NC_OK] (put_env e1 w)) in Ho. clearbody w1.
  assert (post (λ a _, built_from parent (fst a)) (λ _, True)
      ((if reloading && (i <? old_n)%nat
        then match old_ws !! i with
             | Some old_worker_nci =>
                 do _ <- log (EvMigrateCall i) ;
                 do r <- nc_migrate_proxies (assert_panic K) c (ctx old_worker_nci) ;
                 ret (set_ctx (snd (fst r)) (set_role ROLE_WORKER (set_ctx c parent)),
                      <[i := set_ctx (snd r) old_worker_nci]> old_ws)
             | None => stop Segv
             end
        else ret (set_role ROLE_WORKER (set_ctx c parent), old_ws)) w1)) as Hpost.
  { destruct (reloading && (i <? old_n)%nat); [| done].
    destruct (old_ws !! i) as [old|]; [| done].
    unfold bind, log.
    by destruct (nc_migrate_proxies _ _ _ _) as [r w2|r w2]. }
  unfold bind at 1 in Ho.
  match type of Hpost with
  | post _ _ ?blk => destruct blk as [[worker old_ws'] w2|r w2]
  end; simpl in Hpost; [| by subst o].
  unfold bind at 1 in Ho. unfold call_heap at 1 in Ho.
  destruct (core_init_listener K worker (conns w2) (env w2)) as [[[st c'] h] e3].
  unfold bind at 1 in Ho. unfold log at 1 in Ho.
  destruct (decide (st = NC_OK)) as [->|Hne].
  - rewrite bool_decide_eq_true_2 in Ho by done. simpl in Ho. subst o. simpl.
    eexists. split; [done |]. by destruct worker.
  - rewrite bool_decide_eq_false_2 in Ho by done. simpl in Ho. subst o. simpl.
    split; [done | by eexists].
Qed.

Lemma setup_loop_shape parent reloading old_n n old_ws (w : world E) :
  post (λ r _, match fst r with
               | None => length (fst (snd r)) = n ∧
                         Forall (built_from parent) (fst (snd r))
               | Some st => st ≠ NC_OK
               end)
       (λ _, True)
       (for_return (seq 0 n) (setup_worker K parent reloading old_n) ([], old_ws) w).
Proof.
  apply (for_return_seq_inv
           (λ k s _, length (fst s) = k ∧ Forall (built_from parent) (fst s))
           (λ st _ _, st ≠ NC_OK) (λ _, True)); [done |].
  intros k [ws old] w' _ [Hlen Hall]. simpl in Hlen, Hall.
  pose proof (setup_worker_shape parent reloading old_n k ws old w') as Hshape.
  destruct (setup_worker K parent reloading old_n k (ws, old) w')
    as [[[st|] s'] w2|r w2]; simpl in *; [by destruct Hshape | | done].
  destruct Hshape as (x & -> & Hrole). rewrite length_app. simpl.
  split; [lia |]. apply Forall_app. split; [done | by apply Forall_singleton].
Qed.

Lemma build_shape parent reloading st parent' (w w' : world E) :
  nc_setup_listener_for_workers K parent reloading w = Ret (st, parent') w' →
  st = NC_OK →
  length (workers parent') = Z.to_nat (worker_processes (ctx (self parent))) ∧
  Forall (built_from (self parent)) (workers parent').
Proof.
  unfold nc_setup_listener_for_workers. unfold bind at 1. unfold call at 1.
  destruct (array_init K _ (env w)) as [st0 e1].
  destruct (decide (st0 = NC_OK)) as [->|Hne].
  2:{ rewrite bool_decide_eq_false_2 by done. unfold bind, log, ret. simpl.
      intros H ->. by inversion H. }
  rewrite bool_decide_eq_true_2 by done. simpl.
  unfold bind at 1.
  pose proof (setup_loop_shape (self parent) reloading
                (if reloading then length (if reloading then workers parent else [])
                 else 0%nat)
                (Z.to_nat (worker_processes (ctx (self parent))))
                (if reloading then workers parent else []) (put_env e1 w)) as Hloop.
  destruct (for_return _ _ _ _) as [[[st1|] [ws old]] w1|r w1]; simpl in Hloop;
    [| | discriminate].
  - unfold ret. intros H ->. by inversion H.
  - destruct reloading.
    + unfold bind, log, ret.
      destruct (nc_shutdown_workers K old _) as [r w2|r w2]; [| discriminate].
      intros H _. by inversion H.
    + unfold bind, ret. intros H _. by inversion H.
Qed.

Lemma setup_worker_fresh_emits parent old_n i s :
  emits (E := E) is_fresh_build_event (setup_worker K parent false old_n i s).
Proof.
  destruct s as [ws old_ws]. unfold setup_worker, setup_worker_with, nc_clone_instance.
  simpl. emits_step.
  - emits_step; [emits_step |]. destruct a; repeat emits_step.
  - destruct a as [st x]. emits_step; [emits_step |].
    destruct (negb (bool_decide (st = NC_OK))); [emits_step |].
    emits_step; [emits_step |]. destruct a0 as [x' old'].
    emits_step; [emits_step |]. destruct a0 as [st' c']. emits_step; [emits_step |].
    destruct (negb (bool_decide (st' = NC_OK))); emits_step.
Qed.
End BuildShape.

(** X7: a build that returns [NC_OK], reload or not, leaves exactly as
    many workers as the context configures
    ([cf->global.worker_processes], none when that is not positive);
    each is a copy of the master's instance with the role
    [ROLE_WORKER] (pid and channel are the master's, so a new worker
    has no channel of its own before it is spawned); no member of the
    master's instance other than [workers] has changed. *)
Theorem build_yields_configured_workers {E} (K : collaborators E)
    (parent parent' : master) (reloading : bool) (w w' : world E) :
  nc_setup_listener_for_workers K parent reloading w = Ret (NC_OK, parent') w' →
  length (workers parent') = Z.to_nat (worker_processes (ctx (self parent))) ∧
  Forall (built_from (self parent)) (workers parent') ∧
  self parent' = self parent.
Proof.
  intros Hrun. destruct (build_shape K _ _ _ _ _ _ Hrun eq_refl) as [Hlen Hrole].
  split; [done |]. split; [done |]. by eapply setup_keeps_self.
Qed.

(** X8: a build that is not a reload only clones and binds: whatever
    its outcome it never calls the migrator and never calls the
    shutdown sequencer. *)
Theorem fresh_build_only_clones_and_binds {E} (K : collaborators E) (parent : master) :
  emits is_fresh_build_event (nc_setup_listener_for_workers K parent false).
Proof.
  unfold nc_setup_listener_for_workers. emits_step; [emits_step |].
  destruct (negb (bool_decide (a = NC_OK))); [repeat emits_step |].
  emits_step; [apply emits_for_return; intros; apply setup_worker_fresh_emits |].
  destruct a0 as [[st|] [ws old]]; repeat emits_step.
Qed.

(** ** Instances of the properties of the migrator *)

Lemma migrate_changes_only_connections_witness :
  static <$> pool ex_dst1_after = static <$> pool ex_dst1 ∧
  static <$> pool ex_src2_after = static <$> pool ex_src2 ∧
  length (pool ex_dst1_after) = length (pool ex_dst1) ∧
  length (pool ex_src2_after) = length (pool ex_src2) ∧
  ctx_addr ex_dst1_after = ctx_addr ex_dst1 ∧
  worker_processes ex_dst1_after = worker_processes ex_dst1 ∧
  ctx_addr ex_src2_after = ctx_addr ex_src2 ∧
  worker_processes ex_src2_after = worker_processes ex_src2.
Proof.
  apply (migrate_changes_only_connections false ex_dst1 ex_src2 ex_dst1_after
           ex_src2_after NC_OK ex_world ex_world_after).
  vm_compute. reflexivity.
Defined.

Lemma migrate_conserves_connections_witness :
  held (pool ex_dst1_after, pool ex_src2_after) ≡ₚ held (pool ex_dst1, pool ex_src2).
Proof.
  apply (migrate_conserves_connections false ex_dst1 ex_src2 ex_dst1_after
           ex_src2_after NC_OK ex_world ex_world_after).
  vm_compute. reflexivity.
Defined.

Lemma migrate_connects_matched_witness :
  is_Some (p_conn (ServerPool "alpha" ex_addr (Some 7%nat))).
Proof.
  apply (migrate_connects_matched false ex_dst1 ex_src2 ex_dst1_after
           ex_src2_after NC_OK ex_world ex_world_after 1 0
           (ServerPool "beta" ex_addr (Some 8%nat))
           (ServerPool "alpha" ex_addr (Some 7%nat))).
  - vm_compute. reflexivity.
  - reflexivity.
  - reflexivity.
  - reflexivity.
Defined.

Lemma migrate_leaves_unmatched_witness :
  pool ex_src2_after !! 1%nat = Some (ServerPool "beta" ex_addr (Some 8%nat)) ∨
  pool ex_src2_after !! 1%nat
  = Some (set_p_conn None (ServerPool "beta" ex_addr (Some 8%nat))).
Proof.
  destruct (migrate_leaves_unmatched false ex_dst1 ex_src2 ex_dst1_after
              ex_src2_after NC_OK ex_world ex_world_after) as (_ & _ & _ & Hcl).
  - vm_compute. reflexivity.
  - destruct (Hcl 1%nat (ServerPool "beta" ex_addr (Some 8%nat)) eq_refl)
      as (s & Hs & [Hk|Hk]).
    + left. reflexivity.
    + left. reflexivity.
Defined.

Lemma migrate_idempotent_witness :
  ∃ w'', nc_migrate_proxies false ex_dst1_after ex_src2_after ex_world_after
         = Ret (NC_OK, ex_dst1_after, ex_src2_after) w'' ∧
         conns w'' = conns ex_world_after.
Proof.
  apply (migrate_idempotent false ex_dst1 ex_src2 ex_dst1_after ex_src2_after NC_OK
           ex_world ex_world_after).
  vm_compute. reflexivity.
Defined.

Lemma build_yields_configured_workers_witness :
  length ex_built_workers
  = Z.to_nat (worker_processes (ctx (self (set_workers [] (Master
      (Instance ROLE_MASTER 1
         (Context 10 2 [ServerPool "alpha" ex_addr None]) None) []))))) ∧
  Forall (built_from (Instance ROLE_MASTER 1
            (Context 10 2 [ServerPool "alpha" ex_addr None]) None)) ex_built_workers ∧
  self (set_workers ex_built_workers (Master
      (Instance ROLE_MASTER 1
         (Context 10 2 [ServerPool "alpha" ex_addr None]) None) []))
  = Instance ROLE_MASTER 1 (Context 10 2 [ServerPool "alpha" ex_addr None]) None.
Proof.
  apply (build_yields_configured_workers ex_K
           (Master (Instance ROLE_MASTER 1
                      (Context 10 2 [ServerPool "alpha" ex_addr None]) None) [])
           (set_workers ex_built_workers (Master
              (Instance ROLE_MASTER 1
                 (Context 10 2 [ServerPool "alpha" ex_addr None]) None) []))
           false (ex_start [] [] [])
           (final_world (nc_setup_listener_for_workers ex_K
              (Master (Instance ROLE_MASTER 1
                         (Context 10 2 [ServerPool "alpha" ex_addr None]) None) [])
              false (ex_start [] [] [])))).
  vm_compute. reflexivity.
Defined.

(** ** The spawner in the parent *)

Section SpawnOk.
Context {E : Type} (K : collaborators E).
Hypothesis Hfriendly : spawn_friendly K.

Lemma spawn_worker_parent fuel i (ws : list instance) x (w : world E) :
  ws !! i = Some x →
  ∃ ch p w', spawn_worker K fuel i ws w
             = Ret (None, <[i := set_pid p (set_chan (Some ch) x)]> ws) w' ∧
             0 < p ∧
             trace w' = trace w ++ [EvAllocChannel i true; EvFork i p; LogWorkerStarted p] ∧
             flags w' = flags w ∧ conns w' = conns w.
Proof.
  intros Hx. destruct Hfriendly as [Halloc Hfork]. unfold spawn_worker. rewrite Hx.
  unfold bind at 1. unfold call at 1.
  pose proof (Halloc (env w)) as Ha.
  destruct (nc_alloc_channel K (env w)) as [[ch|] e1]; simpl in Ha; [| by destruct Ha].
  unfold bind at 1. unfold log at 1. unfold bind at 1. unfold call at 1. simpl.
  pose proof (Hfork e1) as Hf. destruct (fork K e1) as [p e2]. simpl in Hf.
  unfold bind at 1. unfold log at 1.
  destruct (p =? -1) eqn:H1; [lia |]. destruct (p =? 0) eqn:H0; [lia |].
  unfold bind, log, ret. simpl. exists ch, p. eexists.
  split; [by rewrite list_insert_insert_eq |]. split; [done |].
  simpl. by rewrite <- !app_assoc.
Qed.

Lemma spawn_loop fuel (ws : list instance) (w : world E) :
  post (λ r w', fst r = None ∧ spawn_inv ws w (length ws) (snd r) w')
       (λ _, False)
       (for_return (seq 0 (length ws)) (spawn_worker K fuel) ws w).
Proof.
  eapply post_mono.
  - apply (for_return_seq_inv (λ k s w', spawn_inv ws w k s w')
             (λ (_ : rstatus_t) _ _, False) (λ _, False)).
    + unfold spawn_inv. rewrite take_0. simpl. by rewrite app_nil_r.
    + intros k s w1 Hk (Hlen & Hctx & Hrole & Hsp & Htr & Hfl & Hco).
      destruct (lookup_lt_is_Some_2 s k) as [x Hx]; [lia |].
      destruct (spawn_worker_parent fuel k s x w1 Hx)
        as (ch & p & w2 & Hrun & Hp & Htr2 & Hfl2 & Hco2).
      rewrite Hrun. simpl.
      assert (take (S k) (<[k := set_pid p (set_chan (Some ch) x)]> s)
              = take k s ++ [set_pid p (set_chan (Some ch) x)]) as Htake.
      { erewrite take_S_r; [| apply list_lookup_insert_eq; lia].
        by rewrite take_insert_ge by lia. }
      unfold spawn_inv. rewrite length_insert, !list_fmap_insert, Htake.
      split; [done |].
      split; [rewrite list_insert_id; [done | by rewrite list_lookup_fmap, Hx] |].
      split; [rewrite list_insert_id; [done | by rewrite list_lookup_fmap, Hx] |].
      split. { apply Forall_app. split; [done |]. apply Forall_singleton.
               split; [by eexists | done]. }
      split. { rewrite imap_app, concat_app. simpl.
               rewrite length_take_le by lia. rewrite Nat.add_0_r.
               rewrite Htr2, Htr, <- app_assoc. done. }
      split; congruence.
  - intros [[st|] s] w'; simpl; [done |]. done.
  - done.
Qed.

Lemma spawn_ok fuel (ws : list instance) (w : world E) :
  ws ≠ [] →
  ∃ ws' w', nc_spawn_workers K fuel ws w = Ret (NC_OK, ws') w' ∧
            spawn_inv ws w (length ws) ws' w'.
Proof.
  intros Hne. unfold nc_spawn_workers. unfold bind at 1. rewrite ASSERT_run.
  destruct ws as [|x0 ws0] eqn:Hws; [done |]. rewrite <- Hws. clear Hne.
  replace (0 <? length ws)%nat with true by (by rewrite Hws).
  unfold bind at 1. pose proof (spawn_loop fuel ws w) as Hpost.
  destruct (for_return _ _ _ _) as [[r s] w'|r w']; simpl in Hpost; [| done].
  destruct Hpost as [-> Hinv]. simpl. by exists s, w'.
Qed.
End SpawnOk.

(** X9: when no channel allocation fails and every fork answers in
    the parent, spawning a non-empty generation returns [NC_OK]: every
    worker has a channel and a positive pid afterwards, contexts and
    roles are unchanged, exactly one allocation and one fork happened
    per worker, in index order, and the parent's flags (its role is
    among them) and the connection owners are as before. *)
Theorem spawn_success {E} (K : collaborators E) (fuel : nat)
    (ws : list instance) (w : world E) :
  spawn_friendly K → ws ≠ [] →
  ∃ ws' w', nc_spawn_workers K fuel ws w = Ret (NC_OK, ws') w' ∧
            length ws' = length ws ∧ Forall spawned ws' ∧
            ctx <$> ws' = ctx <$> ws ∧ role <$> ws' = role <$> ws ∧
            trace w' = trace w ++ concat (imap spawn_events ws') ∧
            flags w' = flags w ∧ conns w' = conns w.
Proof.
  intros HK Hne. destruct (spawn_ok K HK fuel ws w Hne) as (ws' & w' & Hrun & Hinv).
  destruct Hinv as (Hlen & Hctx & Hrole & Hsp & Htr & Hfl & Hco).
  rewrite <- Hlen, firstn_all in Hsp, Htr.
  exists ws', w'. done.
Qed.

Lemma spawn_success_witness :
  ∃ ws' w', nc_spawn_workers ex_K_ok 0 ex_built_workers (ex_start [] [] [])
            = Ret (NC_OK, ws') w' ∧
            length ws' = length ex_built_workers ∧ Forall spawned ws' ∧
            ctx <$> ws' = ctx <$> ex_built_workers ∧
            role <$> ws' = role <$> ex_built_workers ∧
            trace w' = trace (ex_start [] [] []) ++ concat (imap spawn_events ws') ∧
            flags w' = flags (ex_start [] [] []) ∧ conns w' = conns (ex_start [] [] []).
Proof.
  apply (spawn_success ex_K_ok 0 ex_built_workers (ex_start [] [] [])).
  - split; intros e; simpl; [by eexists | lia].
  - discriminate.
Defined.



(** ** The child closes the other workers' listeners *)

Lemma deinit_events_snoc self_i (l : list instance) x :
  deinit_events self_i (l ++ [x])
  = deinit_events self_i l ++
    (if decide (length l = self_i) then [] else [EvProxyDeinit (ctx_addr (ctx x))]).
Proof.
  unfold deinit_events. rewrite imap_app, omap_app. simpl. rewrite Nat.add_0_r.
  by case_decide.
Qed.

Section CloseOthers.
Context {E : Type} (K : collaborators E).

Lemma close_other_step self_i (ws : list instance) (w0 : world E) k s w :
  (k < length ws)%nat →
  close_inv self_i ws w0 k s w →
  post (close_inv self_i ws w0 (S k)) (λ _, False) (nc_close_other_proxy K self_i k s w).
Proof.
  intros Hk (Hlen & Hsame & Htr & Hfl).
  destruct (lookup_lt_is_Some_2 ws k) as [x Hx]; [done |].
  assert (s !! k = Some x) as Hsx by (rewrite Hsame; [done | left; lia]).
  unfold nc_close_other_proxy. rewrite Hsx.
  assert (deinit_events self_i (take (S k) ws)
          = deinit_events self_i (take k ws) ++
            (if decide (k = self_i) then [] else [EvProxyDeinit (ctx_addr (ctx x))]))
    as Hev.
  { by rewrite (take_S_r _ _ _ Hx), deinit_events_snoc, length_take_le by lia. }
  case_bool_decide as Hself.
  - simpl. unfold close_inv. rewrite Hev. split; [done |]. split.
    + intros m Hm. apply Hsame. destruct Hm; [left; lia | by right].
    + rewrite decide_True by done. by rewrite app_nil_r.
  - unfold bind, call_heap, log, ret.
    destruct (proxy_deinit K (ctx x) (conns w) (env w)) as [[c h] e1]. simpl.
    unfold close_inv. rewrite Hev.
    split; [by rewrite length_insert |]. split.
    + intros m Hm. rewrite list_lookup_insert_ne; [apply Hsame |].
      * destruct Hm; [left; lia | by right].
      * destruct Hm; [lia | congruence].
    + rewrite decide_False by done. simpl. rewrite Htr, <- app_assoc. done.
Qed.

Lemma close_others_run self_i (ws : list instance) (w : world E) :
  post (close_inv self_i ws w (length ws)) (λ _, False)
       (nc_close_other_proxies K ws self_i w).
Proof.
  unfold nc_close_other_proxies.
  apply (for_each_seq_inv (close_inv self_i ws w) (λ _, False)).
  - unfold close_inv. rewrite take_0. unfold deinit_events. simpl.
    by rewrite app_nil_r.
  - intros k s w' Hk Hinv. apply close_other_step; [lia | done].
Qed.
End CloseOthers.

(** X11: [nc_close_other_proxies] always returns; it calls
    [proxy_deinit] once for every worker other than the calling one, in
    index order, and for no other; the array keeps its length and the
    caller's own descriptor, and the process-wide flags are not
    touched. *)
Theorem close_other_proxies_spares_self {E} (K : collaborators E)
    (ws : list instance) (self_i : nat) (w : world E) :
  ∃ ws' w', nc_close_other_proxies K ws self_i w = Ret ws' w' ∧
            length ws' = length ws ∧ ws' !! self_i = ws !! self_i ∧
            trace w' = trace w ++ deinit_events self_i ws ∧
            flags w' = flags w.
Proof.
  pose proof (close_others_run K self_i ws w) as Hpost.
  destruct (nc_close_other_proxies K ws self_i w) as [ws' w'|r w']; simpl in Hpost;
    [| done].
  destruct Hpost as (Hlen & Hsame & Htr & Hfl). rewrite firstn_all in Htr.
  exists ws', w'. split; [done |]. split; [done |].
  split; [apply Hsame; by right | done].
Qed.

(** ** The sequencer on a worker that was never spawned *)

Section ShutdownSegv.
Context {E : Type} (K : collaborators E).

Lemma shutdown_loop_segv idxs (pre post : list instance) x (w : world E) :
  (length post < length idxs)%nat →
  chan x = None →
  Forall (λ y, chan y ≠ None) post →
  ∃ w' ns, for_each idxs (shutdown_worker K) (pre ++ x :: post) w = Stop Segv w' ∧
           length ns = length post ∧
           trace w' = trace w ++ concat (zip_with shutdown_events (reverse post) ns).
Proof.
  revert post w. induction idxs as [|k ks IH]; intros post w Hlen Hx Hch.
  - simpl in Hlen. lia.
  - destruct post as [|y post0] using rev_ind.
    + exists w, []. simpl. unfold bind.
      unfold shutdown_worker. rewrite array_pop_snoc, Hx. simpl.
      by rewrite app_nil_r.
    + clear IHpost0. rewrite length_app in Hlen. simpl in Hlen.
      apply Forall_app in Hch as [Hch0 Hy]. rewrite Forall_singleton in Hy.
      destruct (chan y) as [ch|] eqn:Hc; [| done].
      destruct (shutdown_worker_run K k (pre ++ x :: post0) y ch w Hc)
        as (n & w1 & Hrun & Htr1).
      destruct (IH post0 w1) as (w' & ns & Hloop & Hns & Htr); [lia | done | done |].
      exists w', (n :: ns). simpl. unfold bind.
      replace (pre ++ x :: post0 ++ [y]) with ((pre ++ x :: post0) ++ [y])
        by (by rewrite <- app_assoc).
      rewrite Hrun, Hloop. rewrite reverse_snoc. simpl. rewrite length_app. simpl.
      split; [done |]. split; [lia |]. by rewrite Htr, Htr1, <- app_assoc.
Qed.
End ShutdownSegv.

(** X12: the shutdown sequencer does not test [worker_nci->chan]: run
    on a collection in which some worker has no channel (a worker that
    was built but never spawned), it shuts down the workers behind that
    one, from the last to the first, and then dereferences the NULL
    channel; the workers in front of it are never told to quit. *)
Theorem shutdown_unspawned_worker_segv {E} (K : collaborators E)
    (pre post : list instance) (x : instance) (w : world E) :
  chan x = None →
  Forall (λ y, chan y ≠ None) post →
  ∃ w' ns, nc_shutdown_workers K (pre ++ x :: post) w = Stop Segv w' ∧
           length ns = length post ∧
           trace w' = trace w ++ concat (zip_with shutdown_events (reverse post) ns).
Proof.
  intros Hx Hch.
  destruct (shutdown_loop_segv K (seq 0 (length (pre ++ x :: post))) pre post x w)
    as (w' & ns & Hloop & Hrest); [| done | done |].
  { rewrite length_seq, length_app. simpl. lia. }
  exists w', ns. split; [| done].
  unfold nc_shutdown_workers, bind. by rewrite Hloop.
Qed.

Lemma shutdown_unspawned_worker_segv_witness :
  ∃ w' ns, nc_shutdown_workers ex_K
             ([ex_running_worker] ++ ex_half_built_worker :: []) (ex_start [] [] [])
           = Stop Segv w' ∧
           length ns = 0%nat ∧
           trace w' = trace (ex_start [] [] []) ++
                      concat (zip_with shutdown_events (reverse []) ns).
Proof.
  apply (shutdown_unspawned_worker_segv ex_K [ex_running_worker] []
           ex_half_built_worker (ex_start [] [] [])).
  - reflexivity.
  - constructor.
Defined.

(** ** The worker process *)

Section Worker.
Context {E : Type} (K : collaborators E).

Lemma worker_loop_outcome fuel nci (w : world E) :
  ∃ evs, trace (final_world (worker_loop K fuel nci w)) = trace w ++ evs ∧
         match worker_loop K fuel nci w with
         | Ret _ w' => pm_quit w' = true ∨ Exists is_failed_core_loop evs
         | Stop r _ => r = Running
         end.
Proof.
  revert w. induction fuel as [|fuel IH]; intros w;
    remember (worker_loop K _ nci w) as o eqn:Ho; simpl in Ho;
    unfold bind at 1 in Ho; unfold get at 1 in Ho; destruct (pm_quit w) eqn:Hq.
  - subst o. exists []. simpl. rewrite app_nil_r. split; [done | by left].
  - subst o. exists []. simpl. by rewrite app_nil_r.
  - subst o. exists []. simpl. rewrite app_nil_r. split; [done | by left].
  - unfold bind at 1 in Ho. unfold call at 1 in Ho.
    destruct (core_loop K (ctx nci) (env w)) as [[st quit] e1].
    unfold bind at 1 in Ho. unfold log at 1 in Ho. unfold bind at 1 in Ho.
    set (w1 := add_events [EvCoreLoop st] (put_env e1 w)) in Ho.
    assert (trace w1 = trace w ++ [EvCoreLoop st]) as Htr1 by done.
    assert (∃ w2, (if quit then set_pm_quit true else ret tt) w1 = Ret tt w2 ∧
                  trace w2 = trace w1) as (w2 & Hq2 & Htr2).
    { destruct quit; by eexists. }
    rewrite Hq2 in Ho.
    destruct (decide (st = NC_OK)) as [->|Hne].
    + rewrite bool_decide_eq_true_2 in Ho by done. simpl in Ho. subst o.
      destruct (IH w2) as (evs & Htr & Hout).
      exists (EvCoreLoop NC_OK :: evs). split.
      * rewrite Htr, Htr2, Htr1, <- app_assoc. done.
      * destruct (worker_loop K fuel nci w2); [| done].
        destruct Hout as [?|?]; [by left | right; by apply Exists_cons_tl].
    + rewrite bool_decide_eq_false_2 in Ho by done. simpl in Ho. subst o. simpl.
      exists [EvCoreLoop st]. split; [by rewrite Htr2, Htr1 |].
      right. by apply Exists_cons_hd.
Qed.

Lemma worker_outcome_cons nci e evs (o : outcome (world E) instance) :
  ¬ is_core_loop e → worker_outcome nci evs o → worker_outcome nci (e :: evs) o.
Proof.
  intros He. destruct o as [a w'|[| |code|] w']; simpl; try done.
  - intros H. by apply Forall_cons.
  - intros [-> [?|?]]; (split; [done |]); [by left | right; by apply Exists_cons_tl].
Qed.

Lemma worker_process_checked fuel worker_id nci (w : world E) :
  ∃ evs,
    trace (final_world (nc_worker_process K fuel worker_id nci w)) = trace w ++ evs ∧
    worker_outcome nci evs (nc_worker_process K fuel worker_id nci w).
Proof.
  remember (nc_worker_process K fuel worker_id nci w) as o eqn:Ho.
  unfold nc_worker_process in Ho.
  match type of Ho with
  | context [bind (ASSERT _ _ _) ?k] => set (rest := k) in Ho
  end.
  assert (∀ w0 : world E, ∃ evs,
            trace (final_world (rest tt w0)) = trace w0 ++ evs ∧
            worker_outcome nci evs (rest tt w0)) as Hrest.
  { intros w0. remember (rest tt w0) as o0 eqn:Ho0. clear Ho.
    unfold rest in Ho0. unfold bind at 1 in Ho0. unfold call at 1 in Ho0.
    destruct (sigprocmask K (env w0)) as [r e1]. destruct (r =? -1).
    { unfold bind, log, ret in Ho0. simpl in Ho0. subst o0. simpl.
      eexists. split; [done |]. apply Forall_singleton. by intros []. }
    unfold bind at 1 in Ho0. unfold call_heap at 1 in Ho0. simpl in Ho0.
    destruct (core_init_instance K nci (conns w0) e1) as [[[st c] h] e2].
    destruct (decide (st = NC_OK)) as [->|Hne].
    2:{ rewrite bool_decide_eq_false_2 in Ho0 by done.
        unfold bind, log, ret in Ho0. simpl in Ho0. subst o0. simpl.
        eexists. split; [done |]. apply Forall_singleton. by intros []. }
    rewrite bool_decide_eq_true_2 in Ho0 by done. simpl in Ho0.
    destruct (chan nci) as [ch|] eqn:Hch.
    2:{ subst o0. exists []. simpl. by rewrite app_nil_r. }
    unfold bind at 1 in Ho0. unfold call at 1 in Ho0. simpl in Ho0.
    destruct (nc_add_channel_event K (fds1 ch) e2) as [st2 e3].
    destruct (decide (st2 = NC_OK)) as [->|Hne].
    2:{ rewrite bool_decide_eq_false_2 in Ho0 by done.
        unfold bind, log, ret in Ho0. simpl in Ho0. subst o0. simpl.
        eexists. split; [done |]. apply Forall_singleton. by intros []. }
    rewrite bool_decide_eq_true_2 in Ho0 by done. simpl in Ho0.
    unfold bind at 1 in Ho0.
    destruct (worker_loop_outcome fuel (set_ctx c nci)
                (put_env e3 (put_env e2 (put_heap h (put_env e1 w0)))))
      as (evs & Htr & Hout).
    destruct (worker_loop K fuel (set_ctx c nci) _) as [[] w4|r4 w4]; simpl in Htr.
    - unfold bind, log, stop in Ho0. simpl in Ho0. subst o0. simpl.
      exists (evs ++ [LogWorker "terminated with quit flag"]). split.
      + by rewrite Htr, <- app_assoc.
      + split; [done |]. destruct Hout as [?|?]; [by left | right].
        apply Exists_app. by left.
    - subst r4 o0. simpl. exists evs. done. }
  unfold bind at 1 in Ho. rewrite ASSERT_run in Ho.
  destruct (bool_decide (role nci = ROLE_WORKER)) eqn:Hrole; [subst o; apply Hrest |].
  apply bool_decide_eq_false in Hrole.
  destruct (assert_panic K).
  - subst o. simpl. eexists. split; [done |]. done.
  - subst o.
    destruct (Hrest (add_events [AssertViolated "nci->role == ROLE_WORKER"] w))
      as (evs & Htr & Hout).
    exists (AssertViolated "nci->role == ROLE_WORKER" :: evs). split.
    + rewrite Htr. simpl. by rewrite <- app_assoc.
    + apply worker_outcome_cons; [by intros [] | done].
Qed.
End Worker.

(** X13: the ways [nc_worker_process] can end.  If it returns (one of
    its three early returns), the event loop has not run at all.  If it
    exits, the exit status is 0, also when the loop ended because
    [core_loop] failed, and either the quit flag is set or an iteration
    of [core_loop] has failed.  It dereferences a NULL pointer only
    when the worker has no channel, and aborts only on a descriptor
    whose role is not [ROLE_WORKER]. *)
Theorem worker_process_outcomes {E} (K : collaborators E) (fuel worker_id : nat)
    (nci : instance) (w : world E) :
  ∃ evs,
    trace (final_world (nc_worker_process K fuel worker_id nci w)) = trace w ++ evs ∧
    worker_outcome nci evs (nc_worker_process K fuel worker_id nci w).
Proof. apply worker_process_checked. Qed.

(** ** The statuses of the two cycles *)

Section Cycles.
Context {E : Type} (K : collaborators E).

Lemma respawn_phase_status fuel p st p' (w w' : world E) :
  respawn_phase K fuel p w = Ret (Some st, p') w' →
  st ≠ NC_OK ∧
  ∃ ws, nc_spawn_workers K fuel (workers p) (put_respawn false w) = Ret (st, ws) w' ∧
        p' = set_workers ws p.
Proof.
  unfold respawn_phase. unfold bind at 1. unfold get at 1.
  destruct (pm_respawn w); [| unfold ret; intros H; by inversion H].
  unfold bind at 1. unfold set_pm_respawn at 1. unfold bind at 1.
  destruct (nc_spawn_workers K fuel (workers p) _) as [[st1 ws] w1|r w1]; [| discriminate].
  destruct (decide (st1 = NC_OK)) as [->|Hne].
  - rewrite bool_decide_eq_true_2 by done. unfold ret. simpl. intros H. by inversion H.
  - rewrite bool_decide_eq_false_2 by done. unfold ret. simpl. intros H.
    inversion H; subst. split; [done |]. by exists ws.
Qed.

Lemma cycle_pass_status fuel p st p' (w w' : world E) :
  cycle_pass K fuel p w = Ret (Some st, p') w' →
  st ≠ NC_OK ∧
  ∃ p1 w1 ws, pm_respawn w1 = false ∧
    nc_spawn_workers K fuel (workers p1) w1 = Ret (st, ws) w' ∧ p' = set_workers ws p1.
Proof.
  unfold cycle_pass. unfold bind at 1.
  destruct (reload_phase K p w) as [[cont p1] w1|r w1]; [| discriminate].
  destruct cont; [unfold ret; intros H; by inversion H |].
  unfold bind at 1.
  destruct (respawn_phase K fuel p1 w1) as [[[st1|] p2] w2|r w2] eqn:Hr;
    [| | discriminate]; simpl.
  - unfold ret. intros H. inversion H; subst.
    destruct (respawn_phase_status _ _ _ _ _ _ Hr) as (Hne & ws & Hspawn & ->).
    split; [done |]. by exists p1, (put_respawn false w1), ws.
  - unfold bind. destruct (wait_phase K w2); [| discriminate].
    unfold ret. intros H. by inversion H.
Qed.

Lemma cycle_loop_status fuel p st p' (w w' : world E) :
  cycle_loop K fuel p w = Ret (st, p') w' →
  st ≠ NC_OK ∧
  ∃ fuel' p1 w1 ws, pm_respawn w1 = false ∧
    nc_spawn_workers K fuel' (workers p1) w1 = Ret (st, ws) w' ∧ p' = set_workers ws p1.
Proof.
  revert p w. induction fuel as [|fuel IH]; intros p w; simpl; [discriminate |].
  unfold bind at 1.
  destruct (cycle_pass K fuel p w) as [[[st1|] p1] w1|r w1] eqn:Hp; simpl;
    [| apply IH | discriminate].
  unfold ret. intros H. inversion H; subst.
  destruct (cycle_pass_status _ _ _ _ _ _ Hp) as (Hne & p2 & w2 & ws & Hfl & Hspawn & ->).
  split; [done |]. by exists fuel, p2, w2, ws.
Qed.

End Cycles.

(** X14: the master cycle has no successful return: whenever
    [nc_multi_processes_cycle] returns, it returns a failure status,
    and that status is either the one the first build returned (the
    master is then as that build left it and the failure is logged) or
    the one returned by the spawn pass that broke the loop (the master
    then holds the array that spawn pass left). *)
Theorem master_cycle_returns_failure {E} (K : collaborators E) (fuel : nat)
    (parent parent' : master) (st : rstatus_t) (w w' : world E) :
  nc_multi_processes_cycle K fuel parent w = Ret (st, parent') w' →
  st ≠ NC_OK ∧ master_return K parent w st parent' w'.
Proof.
  unfold nc_multi_processes_cycle. unfold bind at 1. unfold set_pm_respawn at 1.
  unfold bind at 1. unfold master_return.
  destruct (nc_setup_listener_for_workers K parent false _) as [[st0 p0] w0|r w0];
    [| discriminate].
  destruct (decide (st0 = NC_OK)) as [->|Hne].
  - rewrite bool_decide_eq_true_2 by done. simpl. intros Hloop.
    destruct (cycle_loop_status K _ _ _ _ _ _ Hloop) as (Hne & Hspawn).
    split; [done | by right].
  - rewrite bool_decide_eq_false_2 by done. unfold bind, log, ret. simpl.
    intros H. inversion H; subst. split; [done |]. left. by exists w0.
Qed.

Lemma master_cycle_returns_failure_witness :
  NC_ENOMEM ≠ NC_OK ∧
  master_return ex_K ex_parent (ex_start [] [false] []) NC_ENOMEM
    (returned ex_parent
       (match nc_multi_processes_cycle ex_K 1 ex_parent (ex_start [] [false] []) with
        | Ret a w' => Ret (snd a) w'
        | Stop r w' => Stop r w'
        end))
    (final_world (nc_multi_processes_cycle ex_K 1 ex_parent (ex_start [] [false] []))).
Proof.
  apply (master_cycle_returns_failure ex_K 1 ex_parent _ NC_ENOMEM
           (ex_start [] [false] []) _).
  vm_compute. reflexivity.
Defined.



(** ** The process-wide flags *)

Section Keeps.
Context {E : Type}.












Lemma flags_inv (w w' : world E) :
  flags w' = flags w →
  pm_reload w' = pm_reload w ∧ pm_respawn w' = pm_respawn w ∧
  pm_myrole w' = pm_myrole w ∧ pm_quit w' = pm_quit w.
Proof. unfold flags. intros H. by inversion H. Qed.
End Keeps.


Section KeepsBuild.
Context {E : Type} (K : collaborators E).






End KeepsBuild.



(** ** A child that fails to initialise *)

Section Child.
Context {E : Type} (K : collaborators E).
Hypothesis Hchild : failing_child K.

Lemma worker_mask_failure fuel worker_id nci (w : world E) :
  ∃ w', nc_worker_process K fuel worker_id nci w
        = (if assert_panic K && negb (bool_decide (role nci = ROLE_WORKER))
           then Stop Abort w' else Ret nci w') ∧
        flags w' = flags w.
Proof.
  destruct Hchild as (_ & _ & Hmask).
  unfold nc_worker_process. unfold bind at 1. rewrite ASSERT_run.
  assert (∀ w0 : world E, ∃ w', bind (call (sigprocmask K))
            (λ r, if r =? -1
                  then bind (log (LogWorker "failed to clear signal mask"))
                            (λ _, ret nci)
                  else bind (call_heap (core_init_instance K nci))
                    (λ '(status, c),
                       if negb (bool_decide (status = NC_OK))
                       then bind (log (LogWorker "failed to initialize"))
                                 (λ _, ret (set_ctx c nci))
                       else match chan (set_ctx c nci) with
                            | None => stop Segv
                            | Some ch =>
                                bind (call (nc_add_channel_event K (fds1 ch)))
                                  (λ status0,
                                     if negb (bool_decide (status0 = NC_OK))
                                     then bind (log (LogWorker "failed to add channel event"))
                                               (λ _, ret (set_ctx c nci))
                                     else bind (worker_loop K fuel (set_ctx c nci))
                                            (λ _, bind (log (LogWorker "terminated with quit flag"))
                                                    (λ _, stop (Exit 0))))
                            end)) w0 = Ret nci w' ∧ flags w' = flags w0) as Hrest.
  { intros w0. unfold bind at 1. unfold call at 1.
    pose proof (Hmask (env w0)) as Hm.
    destruct (sigprocmask K (env w0)) as [r e1]. simpl in Hm. subst r. simpl.
    unfold bind, log, ret. by eexists. }
  destruct (bool_decide (role nci = ROLE_WORKER)); simpl.
  - rewrite andb_false_r. apply Hrest.
  - rewrite andb_true_r. destruct (assert_panic K).
    + by eexists.
    + destruct (Hrest (add_events [AssertViolated "nci->role == ROLE_WORKER"] w))
        as (w' & Hrun & Hfl).
      exists w'. done.
Qed.

Lemma spawn_worker_child fuel i (ws : list instance) x (w : world E) :
  ws !! i = Some x →
  ∃ ws' w', spawn_worker K fuel i ws w
            = (if assert_panic K then Stop Abort w' else Ret (None, ws') w') ∧
            pm_myrole w' = ROLE_WORKER ∧ length ws' = length ws.
Proof.
  intros Hx. destruct Hchild as (Halloc & Hfork & _). unfold spawn_worker. rewrite Hx.
  unfold bind at 1. unfold call at 1.
  pose proof (Halloc (env w)) as Ha.
  destruct (nc_alloc_channel K (env w)) as [[ch|] e1]; simpl in Ha; [| by destruct Ha].
  unfold bind at 1. unfold log at 1. unfold bind at 1. unfold call at 1. simpl.
  pose proof (Hfork e1) as Hf. destruct (fork K e1) as [p e2]. simpl in Hf. subst p.
  unfold bind at 1. unfold log at 1. simpl.
  unfold bind at 1. unfold set_pm_myrole at 1.
  unfold bind at 1. unfold call at 1. simpl.
  destruct (getpid K e2) as [p e3]. unfold bind at 1.
  match goal with
  | |- context [nc_close_other_proxies K ?a ?b ?c] =>
      pose proof (close_others_run K b a c) as Hclose;
      destruct (nc_close_other_proxies K a b c) as [ws1 w1|r w1]
  end; simpl in Hclose; [| done].
  destruct Hclose as (Hlen1 & _ & _ & Hfl1).
  apply flags_inv in Hfl1 as (_ & _ & Hrole1 & _). simpl in Hrole1.
  rewrite !length_insert in Hlen1.
  unfold bind at 1.
  match goal with
  | |- context [nc_worker_process K fuel i ?n w1] =>
      destruct (worker_mask_failure fuel i n w1) as (w2 & Hrun & Hfl2); rewrite Hrun
  end.
  apply flags_inv in Hfl2 as (_ & _ & Hrole2 & _).
  destruct (assert_panic K); simpl.
  - match goal with
    | |- context [if negb ?b then _ else _] => destruct b
    end; simpl.
    + unfold ASSERT, bind, log, ret, stop. simpl.
      exists ws1. eexists. split; [done |]. simpl. split; [congruence | done].
    + exists ws1, w2. split; [done |]. split; [congruence | done].
  - unfold ASSERT, bind, log, ret, stop. simpl.
    eexists. eexists. split; [done |]. simpl.
    split; [congruence | by rewrite length_insert].
Qed.
End Child.

(** X17: a child does not leave the spawn loop when its initialisation
    fails.  In a child (fork answers 0) whose signal mask cannot be
    cleared, [nc_worker_process] returns instead of exiting; unless
    assertions panic, control then passes [NOT_REACHED()], falls into
    the [default] label and the iteration ends like an iteration of the
    parent: the loop goes on to the next worker, in a process whose
    role is [ROLE_WORKER].  When assertions panic the child aborts. *)
Theorem failed_child_stays_in_spawn_loop {E} (K : collaborators E) (fuel i : nat)
    (ws : list instance) (x : instance) (w : world E) :
  failing_child K →
  ws !! i = Some x →
  ∃ ws' w', spawn_worker K fuel i ws w
            = (if assert_panic K then Stop Abort w' else Ret (None, ws') w') ∧
            pm_myrole w' = ROLE_WORKER ∧ length ws' = length ws.
Proof. intros HK Hx. by eapply spawn_worker_child. Qed.

Lemma failed_child_stays_in_spawn_loop_witness :
  ∃ ws' w', spawn_worker ex_K_child 0 0 ex_built_workers (ex_start [] [] [])
            = Ret (None, ws') w' ∧
            pm_myrole w' = ROLE_WORKER ∧ length ws' = length ex_built_workers.
Proof.
  apply (failed_child_stays_in_spawn_loop ex_K_child 0 0 ex_built_workers
           (Instance ROLE_WORKER 1
              (Context 20 2 [ServerPool "alpha" ex_addr (Some 7%nat)]) None)
           (ex_start [] [] [])).
  - split; [| split]; intros e; simpl; [by eexists | done | done].
  - reflexivity.
Defined.

(** ** A build stops at its first failure *)

Section FirstFailure.
Context {E : Type} (K : collaborators E).

Lemma setup_worker_steps parent reloading old_n i s (w : world E) :
  ∃ evs,
    trace (final_world (setup_worker K parent reloading old_n i s w)) = trace w ++ evs ∧
    match setup_worker K parent reloading old_n i s w with
    | Ret (Some st, _) _ => ends_in_failure st evs
    | _ => Forall step_ok evs
    end.
Proof.
  destruct s as [ws old_ws].
  remember (setup_worker K parent reloading old_n i (ws, old_ws) w) as o eqn:Ho.
  unfold setup_worker, setup_worker_with, nc_clone_instance in Ho.
  unfold bind at 1 2 in Ho. unfold call at 1 in Ho.
  destruct (core_ctx_create K parent (env w)) as [[c|] e1]; simpl in Ho.
  2:{ unfold bind, log, ret in Ho. simpl in Ho. subst o. simpl.
      exists [LogCtxCreateFailed; EvClone i NC_ERROR].
      split; [by rewrite <- app_assoc |]. split; [done |].
      exists [LogCtxCreateFailed], (EvClone i NC_ERROR).
      split; [done |]. split; [| done]. by apply Forall_singleton. }
  unfold bind at 1 in Ho. unfold log at 1 in Ho. simpl in Ho.
  set (w1 := add_events [EvClone i NC_OK] (put_env e1 w)) in Ho.
  assert (trace w1 = trace w ++ [EvClone i NC_OK]) as Htr1 by done. clearbody w1.
  assert (emits (E := E) step_ok
      (if reloading && (i <? old_n)%nat
        then match old_ws !! i with
             | Some old_worker_nci =>
                 do _ <- log (EvMigrateCall i) ;
                 do r <- nc_migrate_proxies (assert_panic K) c (ctx old_worker_nci) ;
                 ret (set_ctx (snd (fst r)) (set_role ROLE_WORKER (set_ctx c parent)),
                      <[i := set_ctx (snd r) old_worker_nci]> old_ws)
             | None => stop Segv
             end
        else ret (set_role ROLE_WORKER (set_ctx c parent), old_ws))) as Hblock.
  { destruct (reloading && (i <? old_n)%nat); [| emits_step].
    destruct (old_ws !! i) as [old|]; [| emits_step].
    emits_step; [emits_step |]. emits_step; [| emits_step].
    eapply emits_mono; [| apply nc_migrate_proxies_emits]. by intros []. }
  destruct (Hblock w1) as (evs1 & Htr2 & Hok1).
  unfold bind at 1 in Ho.
  match type of Htr2 with
  | trace (final_world ?blk) = _ => destruct blk as [[worker old_ws'] w2|r w2]
  end; simpl in Htr2.
  2:{ subst o. simpl. exists (EvClone i NC_OK :: evs1). split.
      - rewrite Htr2, Htr1, <- app_assoc. done.
      - by apply Forall_cons. }
  unfold bind at 1 in Ho. unfold call_heap at 1 in Ho.
  destruct (core_init_listener K worker (conns w2) (env w2)) as [[[st c'] h] e3].
  unfold bind at 1 in Ho. unfold log at 1 in Ho.
  destruct (decide (st = NC_OK)) as [->|Hne].
  - rewrite bool_decide_eq_true_2 in Ho by done. simpl in Ho. subst o. simpl.
    exists (EvClone i NC_OK :: evs1 ++ [EvInitListener i NC_OK]). split.
    + rewrite Htr2, Htr1, <- !app_assoc. done.
    + apply Forall_cons. split; [done |]. apply Forall_app. split; [done |].
      by apply Forall_singleton.
  - rewrite bool_decide_eq_false_2 in Ho by done. simpl in Ho. subst o. simpl.
    exists (EvClone i NC_OK :: evs1 ++ [EvInitListener i st]). split.
    + rewrite Htr2, Htr1, <- !app_assoc. done.
    + split; [done |]. exists (EvClone i NC_OK :: evs1), (EvInitListener i st).
      split; [done |]. split; [by apply Forall_cons | done].
Qed.

Lemma setup_loop_steps parent reloading old_n n s (w : world E) :
  post (λ r w', match fst r with
                | None => True
                | Some st => ∃ evs, trace w' = trace w ++ evs ∧ ends_in_failure st evs
                end)
       (λ _, True)
       (for_return (seq 0 n) (setup_worker K parent reloading old_n) s w).
Proof.
  eapply post_mono.
  - apply (for_return_seq_inv
             (λ _ _ w', ∃ evs, trace w' = trace w ++ evs ∧ Forall step_ok evs)
             (λ st _ w', ∃ evs, trace w' = trace w ++ evs ∧ ends_in_failure st evs)
             (λ _, True)).
    + exists []. by rewrite app_nil_r.
    + intros k s' w' _ (evs & Htr & Hok).
      destruct (setup_worker_steps parent reloading old_n k s' w') as (evs' & Htr' & Hout).
      destruct (setup_worker K parent reloading old_n k s' w')
        as [[[st|] s''] w''|r w'']; simpl in *; [| | done].
      * destruct Hout as (Hne & pre & e & -> & Hpre & He).
        exists (evs ++ pre ++ [e]). split; [by rewrite Htr', Htr, <- app_assoc |].
        split; [done |]. exists (evs ++ pre), e.
        split; [by rewrite <- app_assoc |]. split; [by apply Forall_app | done].
      * exists (evs ++ evs'). split; [by rewrite Htr', Htr, <- app_assoc |].
        by apply Forall_app.
  - intros [[st|] s'] w'; simpl; done.
  - done.
Qed.

Lemma build_failure_steps parent reloading st parent' (w w' : world E) :
  nc_setup_listener_for_workers K parent reloading w = Ret (st, parent') w' →
  st ≠ NC_OK →
  build_failure K parent w st w'.
Proof.
  unfold nc_setup_listener_for_workers, build_failure.
  unfold bind at 1. unfold call at 1.
  destruct (array_init K _ (env w)) as [st0 e1].
  destruct (decide (st0 = NC_OK)) as [->|Hne].
  2:{ rewrite bool_decide_eq_false_2 by done. unfold bind, log, ret. simpl.
      intros H Hst. inversion H; subst. by left. }
  rewrite bool_decide_eq_true_2 by done. simpl.
  unfold bind at 1.
  pose proof (setup_loop_steps (self parent) reloading
                (if reloading then length (if reloading then workers parent else [])
                 else 0%nat)
                (Z.to_nat (worker_processes (ctx (self parent))))
                ([], if reloading then workers parent else []) (put_env e1 w)) as Hloop.
  destruct (for_return _ _ _ _) as [[[st1|] [ws old]] w1|r w1]; simpl in Hloop;
    [| | discriminate].
  - unfold ret. intros H Hst. inversion H; subst. right. split; [done | exact Hloop].
  - destruct reloading.
    + unfold bind, log, ret.
      destruct (nc_shutdown_workers K old _) as [r w2|r w2]; [| discriminate].
      intros H Hst. inversion H; by subst.
    + unfold bind, ret. intros H Hst. inversion H; by subst.
Qed.
End FirstFailure.

(** X18: a build stops at its first failure, and returns the status
    of the step that failed.  When the builder returns a failure
    status, either [array_init] answered that status and the build did
    nothing but log it, or [array_init] succeeded and the last thing
    the build did is a clone or a bind step (of [core_init_listener])
    that failed with the status returned, no clone and no bind step
    before it having failed. *)
Theorem build_stops_at_first_failure {E} (K : collaborators E)
    (parent parent' : master) (reloading : bool) (st : rstatus_t) (w w' : world E) :
  nc_setup_listener_for_workers K parent reloading w = Ret (st, parent') w' →
  st ≠ NC_OK →
  build_failure K parent w st w'.
Proof. apply build_failure_steps. Qed.

Lemma build_stops_at_first_failure_witness :
  build_failure ex_K ex_parent (ex_start [NC_ERROR] [] []) NC_ERROR
    (final_world (nc_setup_listener_for_workers ex_K ex_parent false
                    (ex_start [NC_ERROR] [] []))).
Proof.
  apply (build_stops_at_first_failure ex_K ex_parent
           (set_workers [Instance ROLE_WORKER 1
                           (Context 20 1 [ServerPool "alpha" ex_addr None]) None]
                        ex_parent)
           false NC_ERROR (ex_start [NC_ERROR] [] [])).
  - vm_compute. reflexivity.
  - discriminate.
Defined.
